(** * replace_unsafe_calls.py: scanner for unsafe AXUIElementCopyAttributeValue calls

    A shallow embedding of [src/MacMCP/replace_unsafe_calls.py] and the
    properties of its matcher, classifier and report.

    Python values are modelled as follows.
    - A [str] is the list of its Unicode code points ([text]); the literals of
      the script are all ASCII and are written with [str "..."]; the double
      quote is the code point [dquote].
    - [int]s that the script computes with ([match.start()], [max(0, ...)])
      are in [Z]; list positions of the regular-expression engine are [nat].
    - [re.finditer] is modelled by a backtracking matcher over the constructs
      the script's pattern uses (module [Re]).
    - [print], [open(...).read()], [Path.exists], [Path.rglob] and [sys.exit]
      are operations of a small state-and-abort monad over a [world] that holds
      the file system, the standard output, the standard error and an
      [environment] that says which of these operations fail; [process] is
      the script as the interpreter runs it, with the traceback of an
      uncaught exception and the final flush of the standard output. *)

From Stdlib Require Import String Ascii.
From Stdlib Require Import List ZArith NArith Lia Bool Arith Sorted Permutation.
Import ListNotations.

Set Implicit Arguments.

(** ** Python strings *)

Module Py.

(** A code point. *)
Definition cp : Type := N.

(** A Python [str]. *)
Definition text : Type := list cp.

(** An ASCII literal of the script as a [text]. *)
Definition str (s : string) : text := map N_of_ascii (list_ascii_of_string s).

Definition dquote : cp := 34%N.
Definition amp : cp := 38%N.
Definition lparen : cp := 40%N.
Definition rparen : cp := 41%N.
Definition comma : cp := 44%N.
Definition newline : cp := 10%N.

(** [==] on [str]. *)
Fixpoint text_eqb (a b : text) : bool :=
  match a, b with
  | [], [] => true
  | x :: a', y :: b' => N.eqb x y && text_eqb a' b'
  | _, _ => false
  end.

(** [x in [l0, l1, ...]] for a list of strings. *)
Definition in_list (x : text) (l : list text) : bool := existsb (text_eqb x) l.

(** The whitespace of [str.strip()] and of [\s] in a [str] pattern
    (CPython's [Py_UNICODE_ISSPACE]). *)
Definition is_space (c : cp) : bool :=
  (((0x09 <=? c) && (c <=? 0x0D)) || ((0x1C <=? c) && (c <=? 0x1F))
   || (c =? 0x20) || (c =? 0x85) || (c =? 0xA0) || (c =? 0x1680)
   || ((0x2000 <=? c) && (c <=? 0x200A))
   || (c =? 0x2028) || (c =? 0x2029) || (c =? 0x202F) || (c =? 0x205F)
   || (c =? 0x3000))%N.

Fixpoint lstrip (s : text) : text :=
  match s with
  | c :: s' => if is_space c then lstrip s' else s
  | [] => []
  end.

Definition rstrip (s : text) : text := rev (lstrip (rev s)).

(** [s.strip()] *)
Definition strip (s : text) : text := rstrip (lstrip s).

(** An index of a slice, brought into [0 .. len]: a negative index counts
    from the end. *)
Definition clamp_index (len i : Z) : Z :=
  if (i <? 0)%Z then Z.max 0 (i + len) else Z.min i len.

(** [s[a:b]] *)
Definition slice (s : text) (a b : Z) : text :=
  let len := Z.of_nat (length s) in
  let lo := clamp_index len a in
  let hi := clamp_index len b in
  firstn (Z.to_nat (hi - lo)) (skipn (Z.to_nat lo) s).

(** [s[:n]] for a literal [n >= 0]. *)
Definition prefix (n : nat) (s : text) : text := slice s 0 (Z.of_nat n).

End Py.

Import Py.

(** ** The regular-expression engine

    The fragment of Python's [re] that the pattern of the script uses:
    literals, a greedy repetition of a one-character class with a lower bound
    and no upper bound ([[^,]+], [\s*]), concatenation and capture groups.
    The matcher backtracks as [re] does: a repetition first takes the longest
    run of characters of its class, and gives characters back one at a time
    while the rest of the pattern fails. *)

Module Re.

Inductive regex : Type :=
| Eps
| Lit (c : cp)
| Repeat (lo : nat) (p : cp -> bool)
| Cat (r1 r2 : regex)
| Group (n : nat) (r : regex).

(** The spans of the groups that took part in a match. *)
Definition marks : Type := nat -> option (nat * nat).

Definition no_marks : marks := fun _ => None.

Definition set_mark (n : nat) (sp : nat * nat) (m : marks) : marks :=
  fun k => if Nat.eqb k n then Some sp else m k.

(** Length of the longest prefix of [t] whose characters are all in [p]. *)
Fixpoint count (p : cp -> bool) (t : text) : nat :=
  match t with
  | c :: t' => if p c then S (count p t') else 0
  | [] => 0
  end.

(** Try the continuation with [n], [n-1], ..., [lo] repetitions. *)
Fixpoint backtrack {A} (lo : nat) (k : nat -> option A) (n : nat) : option A :=
  if n <? lo then None
  else match k n with
       | Some r => Some r
       | None => match n with
                 | 0 => None
                 | S n' => backtrack lo k n'
                 end
       end.

(** [exec r s i m k]: match [r] in [s] from position [i] with marks [m], and
    hand the end position and the marks to the continuation [k]; the first
    success in backtracking order is the result. *)
Fixpoint exec {A} (r : regex) (s : text) (i : nat) (m : marks)
    (k : nat -> marks -> option A) : option A :=
  match r with
  | Eps => k i m
  | Lit c =>
      match nth_error s i with
      | Some x => if N.eqb x c then k (S i) m else None
      | None => None
      end
  | Repeat lo p => backtrack lo (fun n => k (i + n) m) (count p (skipn i s))
  | Cat r1 r2 => exec r1 s i m (fun j m' => exec r2 s j m' k)
  | Group n r => exec r s i m (fun j m' => k j (set_mark n (i, j) m'))
  end.

(** A match object. *)
Record match_obj : Type := MkMatch {
  m_string : text;
  m_start : nat;
  m_end : nat;
  m_marks : marks }.

(** [s[a:b]] for positions [a <= b] of the engine. *)
Definition sub (s : text) (a b : nat) : text := firstn (b - a) (skipn a s).

(** [m.group(n)]; a group that took no part in the match has no text (the
    groups of the pattern below always take part). *)
Definition group (m : match_obj) (n : nat) : text :=
  match n with
  | 0 => sub (m_string m) (m_start m) (m_end m)
  | _ => match m_marks m n with
         | Some (a, b) => sub (m_string m) a b
         | None => []
         end
  end.

(** The pattern anchored at position [i]. *)
Definition match_at (r : regex) (s : text) (i : nat) : option match_obj :=
  exec r s i no_marks (fun j m => Some (MkMatch s i j m)).

(** [re.finditer]: search for the leftmost position from [pos] at which the
    pattern matches, yield the match, and go on from its end. The counter
    [fuel] bounds the number of positions tried. A match that consumes
    nothing would make the search go on one position further; the pattern of
    the script always consumes characters. *)
Fixpoint finditer_from (fuel : nat) (r : regex) (s : text) (pos : nat)
    : list match_obj :=
  match fuel with
  | 0 => []
  | S fuel' =>
      if length s <? pos then []
      else match match_at r s pos with
           | Some m => m :: finditer_from fuel' r s (Nat.max (m_end m) (S pos))
           | None => finditer_from fuel' r s (S pos)
           end
  end.

Definition finditer (r : regex) (s : text) : list match_obj :=
  finditer_from (S (length s)) r s 0.

(** A sequence of pattern items. *)
Fixpoint seq (rs : list regex) : regex :=
  match rs with
  | [] => Eps
  | r :: rs' => Cat r (seq rs')
  end.

(** A literal string. *)
Definition lits (l : text) : regex := seq (map Lit l).

(** [[^c]] *)
Definition other_than (c : cp) : cp -> bool := fun x => negb (N.eqb x c).

(** [X+] and [X*] for a one-character class [X]. *)
Definition plus (p : cp -> bool) : regex := Repeat 1 p.
Definition star (p : cp -> bool) : regex := Repeat 0 p.

End Re.

(** ** analyze_patterns *)

(** The literal [AXUIElementCopyAttributeValue(] that opens the pattern. *)
Definition call_prefix : text := str "AXUIElementCopyAttributeValue(".

(** The pattern of the script, item by item; Q stands for the double quote:
    AXUIElementCopyAttributeValue\( ([^,]+) , \s* Q ([^Q]+) Q \s* as \s*
    CFString, \s* & ([^)]+) \) *)
Definition pattern : Re.regex :=
  Re.seq
    [ Re.lits call_prefix;
      Re.Group 1 (Re.plus (Re.other_than comma));
      Re.Lit comma;
      Re.star is_space;
      Re.Lit dquote;
      Re.Group 2 (Re.plus (Re.other_than dquote));
      Re.Lit dquote;
      Re.star is_space;
      Re.lits (str "as");
      Re.star is_space;
      Re.lits (str "CFString,");
      Re.star is_space;
      Re.Lit amp;
      Re.Group 3 (Re.plus (Re.other_than rparen));
      Re.Lit rparen ].

(** The dictionary that [analyze_patterns] builds for a match. *)
Record match_info : Type := MkInfo {
  element : text;
  attribute : text;
  var_ref : text;
  full_match : text;
  context : text;
  start : Z;
  end_ : Z }.

(** The body of the loop over the matches. *)
Definition info_of_match (content : text) (m : Re.match_obj) : match_info :=
  let element := strip (Re.group m 1) in
  let attribute := Re.group m 2 in
  let var_ref := strip (Re.group m 3) in
  let start := Z.max 0 (Z.of_nat (Re.m_start m) - 100) in
  let end_ := Z.min (Z.of_nat (length content)) (Z.of_nat (Re.m_end m) + 100) in
  let context := slice content start end_ in
  {| element := element;
     attribute := attribute;
     var_ref := var_ref;
     full_match := Re.group m 0;
     context := context;
     start := Z.of_nat (Re.m_start m);
     end_ := Z.of_nat (Re.m_end m) |}.

(** [analyze_patterns] on the text read from the file. *)
Definition analyze_text (content : text) : list match_info :=
  map (info_of_match content) (Re.finditer pattern content).

(** ** suggest_replacement *)

Definition collection_attributes : list text :=
  [str "AXChildren"; str "AXWindows"; str "AXMenus"; str "AXTabs"].
Definition string_attributes : list text :=
  [str "AXRole"; str "AXTitle"; str "AXDescription"; str "AXIdentifier"; str "AXValue"].
Definition bool_attributes : list text :=
  [str "AXEnabled"; str "AXFocused"; str "AXSelected"; str "AXHidden"; str "AXVisible"].
Definition rect_attributes : list text := [str "AXFrame"].
Definition point_attributes : list text := [str "AXPosition"].
Definition size_attributes : list text := [str "AXSize"].

(** The f-string of each branch: SafeAttributeAccess.<getter>({element},
    attribute: Q{attribute}Q) with Q the double quote. *)
Definition wrapper_call (getter : string) (element attribute : text) : text :=
  str "SafeAttributeAccess." ++ str getter ++ [lparen] ++ element
  ++ str ", attribute: " ++ [dquote] ++ attribute ++ [dquote] ++ [rparen].

Definition suggest_replacement (match_info : match_info) : text :=
  let attribute := attribute match_info in
  let element := element match_info in
  if in_list attribute collection_attributes then
    wrapper_call "getArrayAttribute" element attribute
  else if in_list attribute string_attributes then
    wrapper_call "getStringAttribute" element attribute
  else if in_list attribute bool_attributes then
    wrapper_call "getBoolAttribute" element attribute
  else if in_list attribute rect_attributes then
    wrapper_call "getRectAttribute" element attribute
  else if in_list attribute point_attributes then
    wrapper_call "getPointAttribute" element attribute
  else if in_list attribute size_attributes then
    wrapper_call "getSizeAttribute" element attribute
  else
    wrapper_call "getAttribute" element attribute.

(** ** The program and its effects *)

(** A path; a file found below the directory [source_dir] is represented by
    its path relative to [source_dir], which is what
    [swift_file.relative_to(source_dir)] gives back. *)
Definition path : Type := string.

(** What the script asks of the file system. [fs_rglob d] lists the entries
    below [d] whose name ends in [.swift], in the order of the walk;
    [fs_read d f] is the text that [read()] returns for [f] below [d], or
    [None] when [open] or [read] raises (no permission, a directory of that
    name, bytes that do not decode). *)
Record filesystem : Type := MkFs {
  fs_exists : path -> bool;
  fs_rglob : path -> list path;
  fs_read : path -> path -> option text }.

(** One item per call of [print], in the order of the calls of the source.
    [PNoDirectory d] is the line about [source_dir = Path(d)] for the
    argument [d]; [PFileHeader rel] is the header with
    [swift_file.relative_to(source_dir)]; the others carry the values that
    the f-string of the call interpolates. *)
Inductive out_line : Type :=
| PUsage
| PNoDirectory (source_dir : path)
| PAnalyzing (n : nat)
| PFileHeader (rel : path)
| PFound (n : nat)
| PMatchIndex (i : nat)
| PAttribute (a : text)
| PElement (e : text)
| PCurrent (m : text)
| PSuggested (s : text)
| PContext (c : text)
| PSummaryHeader
| PTotal (n : nat)
| PFilesAffected (n : nat)
| PNextSteps
| PStep1
| PStep2
| PStep3
| PStep4.

(** What the interpreter writes to the standard error stream: the traceback
    of an exception that nothing caught, and its complaint when the final
    flush of the standard output fails. *)
Inductive err_line : Type :=
| ETraceback
| EFlushFailed.

(** The operations of a run that can fail for reasons outside the script:
    [Path.exists] and the directory walk raise [OSError] on some paths;
    [print] raises when the standard output cannot take the text (an
    encoding that lacks a character, a device that refuses the write), which
    may depend on what was printed before; the flush of the standard output
    when the interpreter exits can fail. *)
Record environment : Type := MkEnv {
  exists_raises : path -> bool;
  rglob_raises : path -> bool;
  print_raises : list out_line -> out_line -> bool;
  flush_fails : list out_line -> bool }.

(** The environment in which none of these fails. *)
Definition no_faults : environment :=
  {| exists_raises := fun _ => false;
     rglob_raises := fun _ => false;
     print_raises := fun _ _ => false;
     flush_fails := fun _ => false |}.

(** The state of a run: the file system, the environment, and what was
    written so far to the standard output and to the standard error. *)
Record world : Type := MkWorld {
  files : filesystem;
  env : environment;
  stdout : list out_line;
  stderr : list err_line }.

(** How a computation ends: with a value, by [sys.exit(code)], or by an
    exception that nothing catches. *)
Inductive outcome (A : Type) : Type :=
| Ret (a : A)
| SysExit (code : Z)
| Uncaught.
Arguments Ret {A} a.
Arguments SysExit {A} code.
Arguments Uncaught {A}.

Definition prog (A : Type) : Type := world -> outcome A * world.

Definition ret {A} (a : A) : prog A := fun w => (Ret a, w).

Definition bind {A B} (c : prog A) (k : A -> prog B) : prog B :=
  fun w =>
    match c w with
    | (Ret a, w') => k a w'
    | (SysExit code, w') => (SysExit code, w')
    | (Uncaught, w') => (Uncaught, w')
    end.

Notation "x <- c ;; k" := (bind c (fun x => k))
  (at level 61, c at next level, right associativity).
Notation "c ;; k" := (bind c (fun _ => k))
  (at level 61, right associativity).

(** The world after printing [out]. *)
Definition emit (w : world) (out : list out_line) : world :=
  {| files := files w; env := env w; stdout := stdout w ++ out; stderr := stderr w |}.

Definition print (l : out_line) : prog unit :=
  fun w =>
    if print_raises (env w) (stdout w) l then (Uncaught, w)
    else (Ret tt, emit w [l]).

Definition sys_exit {A} (code : Z) : prog A := fun w => (SysExit code, w).

Definition path_exists (p : path) : prog bool :=
  fun w =>
    if exists_raises (env w) p then (Uncaught, w)
    else (Ret (fs_exists (files w) p), w).

Definition rglob_swift (p : path) : prog (list path) :=
  fun w =>
    if rglob_raises (env w) p then (Uncaught, w)
    else (Ret (fs_rglob (files w) p), w).

(** The mode of [open]. *)
Inductive open_mode : Type :=
| ModeRead
| ModeWrite.

(** The file system after [open(f, 'w')]: the file is there and empty. *)
Definition truncated (fs : filesystem) (source_dir rel : path) : filesystem :=
  {| fs_exists := fs_exists fs;
     fs_rglob := fs_rglob fs;
     fs_read := fun d f =>
       if String.eqb d source_dir && String.eqb f rel then Some []
       else fs_read fs d f |}.

(** [with open(file_path, mode) as f: content = f.read()]. With ['r'] the
    text of the file is read, and an entry that cannot be opened or decoded
    raises; with ['w'] the file is truncated and [read] raises, the stream
    not being readable. *)
Definition open_read (mode : open_mode) (source_dir rel : path) : prog text :=
  fun w =>
    match mode with
    | ModeRead =>
        match fs_read (files w) source_dir rel with
        | Some content => (Ret content, w)
        | None => (Uncaught, w)
        end
    | ModeWrite =>
        (Uncaught,
         {| files := truncated (files w) source_dir rel; env := env w;
            stdout := stdout w; stderr := stderr w |})
    end.

Definition analyze_patterns (source_dir file_path : path) : prog (list match_info) :=
  content <- open_read ModeRead source_dir file_path ;;
  ret (analyze_text content).

(** Truth value of a list. *)
Definition nonempty {A} (l : list A) : bool :=
  match l with [] => false | _ :: _ => true end.

(** [for i, match in enumerate(matches, 1): ...]. The unused local
    [lines_before] of the source is computed from strings only and is left
    out. *)
Fixpoint report_matches (i : nat) (matches : list match_info) : prog unit :=
  match matches with
  | [] => ret tt
  | m :: rest =>
      print (PMatchIndex i) ;;
      print (PAttribute (attribute m)) ;;
      print (PElement (element m)) ;;
      print (PCurrent (full_match m)) ;;
      print (PSuggested (suggest_replacement m)) ;;
      print (PContext (prefix 100 (strip (context m)))) ;;
      report_matches (S i) rest
  end.

(** [for swift_file in swift_files: ...], with [total_matches] threaded
    through. *)
Fixpoint scan_files (source_dir : path) (swift_files : list path)
    (total_matches : nat) : prog nat :=
  match swift_files with
  | [] => ret total_matches
  | swift_file :: rest =>
      matches <- analyze_patterns source_dir swift_file ;;
      if nonempty matches then
        print (PFileHeader swift_file) ;;
        print (PFound (length matches)) ;;
        report_matches 1 matches ;;
        scan_files source_dir rest (total_matches + length matches)
      else
        scan_files source_dir rest total_matches
  end.

(** [[f for f in swift_files if analyze_patterns(f)]] *)
Fixpoint files_with_matches (source_dir : path) (swift_files : list path)
    : prog (list path) :=
  match swift_files with
  | [] => ret []
  | f :: rest =>
      matches <- analyze_patterns source_dir f ;;
      kept <- files_with_matches source_dir rest ;;
      ret (if nonempty matches then f :: kept else kept)
  end.

(** [main], given [sys.argv]. *)
Definition main (argv : list string) : prog unit :=
  if negb (length argv =? 2) then
    print PUsage ;;
    sys_exit 1
  else
    let source_dir := nth 1 argv EmptyString in
    found <- path_exists source_dir ;;
    if negb found then
      print (PNoDirectory source_dir) ;;
      sys_exit 1
    else
      swift_files <- rglob_swift source_dir ;;
      print (PAnalyzing (length swift_files)) ;;
      total_matches <- scan_files source_dir swift_files 0 ;;
      print PSummaryHeader ;;
      print (PTotal total_matches) ;;
      affected <- files_with_matches source_dir swift_files ;;
      print (PFilesAffected (length affected)) ;;
      print PNextSteps ;;
      print PStep1 ;;
      print PStep2 ;;
      print PStep3 ;;
      print PStep4.

(** The exit status that the outcome of [main] asks for: 0 when [main]
    returns, the code of [sys.exit], and 1 when an exception reaches the top
    level. *)
Definition exit_status {A} (o : outcome A) : Z :=
  match o with
  | Ret _ => 0
  | SysExit code => code
  | Uncaught => 1
  end.

(** The world with one more line on the standard error. *)
Definition complain (w : world) (e : err_line) : world :=
  {| files := files w; env := env w; stdout := stdout w; stderr := stderr w ++ [e] |}.

(** The script as a process: [main] is called; an exception that reaches the
    top level is reported by a traceback on the standard error; then the
    interpreter flushes the standard output, and when that fails it
    complains on the standard error and the exit status is 120 whatever
    [main] asked for. *)
Definition process (argv : list string) (w : world) : Z * world :=
  let (o, w1) := main argv w in
  let w2 := match o with
            | Uncaught => complain w1 ETraceback
            | _ => w1
            end in
  if flush_fails (env w2) (stdout w2) then (120%Z, complain w2 EFlushFailed)
  else (exit_status o, w2).

(** The world at the start of the process. *)
Definition start_world (e : environment) (fs : filesystem) : world :=
  {| files := fs; env := e; stdout := []; stderr := [] |}.

(** An environment in which no operation fails. *)
Definition quiet (e : environment) : Prop :=
  (forall p, exists_raises e p = false) /\
  (forall p, rglob_raises e p = false) /\
  (forall printed l, print_raises e printed l = false) /\
  (forall printed, flush_fails e printed = false).

(** The call of [main] on a file system, with nothing printed yet, in the
    environment in which only the reading of a file can fail. *)
Definition run (fs : filesystem) (argv : list string) : outcome unit * world :=
  main argv (start_world no_faults fs).

Definition output (r : outcome unit * world) : list out_line := stdout (snd r).

Definition status (r : outcome unit * world) : Z := exit_status (fst r).

(** ** Reading the report

    The counts that the report shows, taken from the printed items. *)

(** The counts of the [Found <N> unsafe calls:] subheaders. *)
Definition found_counts (out : list out_line) : list nat :=
  flat_map (fun l => match l with PFound n => [n] | _ => [] end) out.

(** The counts of the [Total unsafe calls found:] lines. *)
Definition totals (out : list out_line) : list nat :=
  flat_map (fun l => match l with PTotal n => [n] | _ => [] end) out.

(** The counts of the [Files affected:] lines. *)
Definition affected_counts (out : list out_line) : list nat :=
  flat_map (fun l => match l with PFilesAffected n => [n] | _ => [] end) out.

(** The file of each printed match entry: the file named by the latest
    header above the entry ([cur] is the header in force at the start). *)
Fixpoint match_line_files (cur : option path) (out : list out_line) : list path :=
  match out with
  | [] => []
  | PFileHeader f :: out' => match_line_files (Some f) out'
  | PMatchIndex _ :: out' =>
      match cur with
      | Some f => f :: match_line_files cur out'
      | None => match_line_files cur out'
      end
  | _ :: out' => match_line_files cur out'
  end.

(** The number of distinct files with at least one printed match entry. *)
Definition distinct_reported_files (out : list out_line) : nat :=
  length (nodup string_dec (match_line_files None out)).

(** The header in force after [out]. *)
Fixpoint last_header (cur : option path) (out : list out_line) : option path :=
  match out with
  | [] => cur
  | PFileHeader f :: out' => last_header (Some f) out'
  | _ :: out' => last_header cur out'
  end.

(** ** The report as a list

    What a run that reads every file prints, as a function of the file
    system; the lemmas on [main] relate the program to it. *)

(** The matches of a file that can be read. *)
Definition matches_of (fs : filesystem) (source_dir f : path) : list match_info :=
  match fs_read fs source_dir f with
  | Some content => analyze_text content
  | None => []
  end.

Fixpoint match_entries (i : nat) (matches : list match_info) : list out_line :=
  match matches with
  | [] => []
  | m :: rest =>
      [ PMatchIndex i; PAttribute (attribute m); PElement (element m);
        PCurrent (full_match m); PSuggested (suggest_replacement m);
        PContext (prefix 100 (strip (context m))) ]
      ++ match_entries (S i) rest
  end.

Definition file_block (rel : path) (matches : list match_info) : list out_line :=
  if nonempty matches then
    [PFileHeader rel; PFound (length matches)] ++ match_entries 1 matches
  else [].

Definition blocks (fs : filesystem) (source_dir : path) (fl : list path) : list out_line :=
  flat_map (fun f => file_block f (matches_of fs source_dir f)) fl.

Definition has_matches (fs : filesystem) (source_dir f : path) : bool :=
  nonempty (matches_of fs source_dir f).

Definition full_report (fs : filesystem) (source_dir : path) : list out_line :=
  let fl := fs_rglob fs source_dir in
  [PAnalyzing (length fl)] ++ blocks fs source_dir fl
  ++ [ PSummaryHeader;
       PTotal (list_sum (map (fun f => length (matches_of fs source_dir f)) fl));
       PFilesAffected (length (filter (has_matches fs source_dir) fl));
       PNextSteps; PStep1; PStep2; PStep3; PStep4 ].

(** Every file of the list can be opened and read. *)
Definition all_readable (fs : filesystem) (source_dir : path) (fl : list path) : Prop :=
  forall f, In f fl -> fs_read fs source_dir f <> None.

(** ** The shape of a call that the pattern describes *)

(** The parts of a matched call: the text between the opening parenthesis
    and the first comma, the attribute between the quotes, the text between
    the ampersand and the closing parenthesis, and the optional whitespace
    between the items. *)
Record call_parts : Type := MkParts {
  p_target : text;
  p_ws1 : text;
  p_attr : text;
  p_ws2 : text;
  p_ws3 : text;
  p_ws4 : text;
  p_out : text }.

Definition call_text (p : call_parts) : text :=
  call_prefix ++ p_target p ++ [comma] ++ p_ws1 p ++ [dquote] ++ p_attr p
  ++ [dquote] ++ p_ws2 p ++ str "as" ++ p_ws3 p ++ str "CFString," ++ p_ws4 p
  ++ [amp] ++ p_out p ++ [rparen].

Definition all_in (p : cp -> bool) (t : text) : Prop :=
  Forall (fun x => p x = true) t.

Definition call_ok (p : call_parts) : Prop :=
  p_target p <> [] /\ all_in (Re.other_than comma) (p_target p) /\
  p_attr p <> [] /\ all_in (Re.other_than dquote) (p_attr p) /\
  p_out p <> [] /\ all_in (Re.other_than rparen) (p_out p) /\
  all_in is_space (p_ws1 p) /\ all_in is_space (p_ws2 p) /\
  all_in is_space (p_ws3 p) /\ all_in is_space (p_ws4 p).

(** The text after the first comma of a call is an attribute written as a
    quoted literal: optional whitespace, a non-empty literal between double
    quotes, optional whitespace and the keyword [as]. *)
Definition quoted_attribute (rest : text) : Prop :=
  exists ws attr ws' tail,
    all_in is_space ws /\ attr <> [] /\ all_in (Re.other_than dquote) attr /\
    all_in is_space ws' /\
    rest = ws ++ [dquote] ++ attr ++ [dquote] ++ ws' ++ str "as" ++ tail.

(** ** Concrete inputs *)

(** [AXUIElementCopyAttributeValue(element, "AXTitle" as CFString, &titleRef)] *)
Definition title_line : text :=
  str "AXUIElementCopyAttributeValue(element, " ++ [dquote] ++ str "AXTitle"
  ++ [dquote] ++ str " as CFString, &titleRef)".

(** [AXUIElementCopyAttributeValue(button, "AXFrame" as CFString, &frameRef)] *)
Definition frame_line : text :=
  str "AXUIElementCopyAttributeValue(button, " ++ [dquote] ++ str "AXFrame"
  ++ [dquote] ++ str " as CFString, &frameRef)".

(** The call with blanks around the first and the last argument. *)
Definition padded_line : text :=
  str "AXUIElementCopyAttributeValue( element , " ++ [dquote] ++ str "AXTitle"
  ++ [dquote] ++ str " as CFString, & titleRef )".

(** A call whose attribute is held in a constant. *)
Definition variable_line : text :=
  str "AXUIElementCopyAttributeValue(element, kAXTitleAttribute as CFString, &titleRef)".

(** The parts of [padded_line]. *)
Definition padded_parts : call_parts :=
  {| p_target := str " element ";
     p_ws1 := str " ";
     p_attr := str "AXTitle";
     p_ws2 := str " ";
     p_ws3 := str " ";
     p_ws4 := str " ";
     p_out := str " titleRef " |}.

(** Two records for the same attribute of two different elements. *)
Definition title_of_element : match_info :=
  {| element := str "element"; attribute := str "AXTitle"; var_ref := str "titleRef";
     full_match := title_line; context := title_line; start := 0; end_ := 72 |}.

Definition title_of_button : match_info :=
  {| element := str "button"; attribute := str "AXTitle"; var_ref := str "titleRef";
     full_match := title_line; context := title_line; start := 0; end_ := 72 |}.

(** A call with the attribute in a constant, and a call with a literal on
    the next line; the record of the second call. *)
Definition two_calls : text := variable_line ++ [newline] ++ title_line.

Definition second_call : match_info :=
  {| element := str "element"; attribute := str "AXTitle"; var_ref := str "titleRef";
     full_match := title_line; context := two_calls; start := 81; end_ := 153 |}.

(** A directory [Sources] with three files: one call, two calls, none. *)
Definition demo_fs : filesystem :=
  {| fs_exists := fun p => String.eqb p "Sources";
     fs_rglob := fun p =>
       if String.eqb p "Sources" then ["A.swift"; "B.swift"; "C.swift"]%string else [];
     fs_read := fun _ f =>
       if String.eqb f "A.swift" then Some title_line
       else if String.eqb f "B.swift" then Some (two_calls ++ [newline] ++ frame_line)
       else if String.eqb f "C.swift" then Some (str "import Foundation")
       else None |}.

(** The same directory with an entry [D.swift] that cannot be read. *)
Definition broken_fs : filesystem :=
  {| fs_exists := fun p => String.eqb p "Sources";
     fs_rglob := fun p =>
       if String.eqb p "Sources" then ["A.swift"; "D.swift"; "B.swift"]%string else [];
     fs_read := fs_read demo_fs |}.

(** A directory [Sources] without any [.swift] file. *)
Definition empty_fs : filesystem :=
  {| fs_exists := fun p => String.eqb p "Sources";
     fs_rglob := fun _ => [];
     fs_read := fun _ _ => None |}.

Definition demo_argv : list string := ["replace_unsafe_calls.py"; "Sources"]%string.

(** A call whose first argument is itself a call with a quoted literal, and
    whose attribute argument is the variable [attrName]. *)
Definition nested_first_argument : text :=
  str "pick(a, " ++ [dquote] ++ str "AXTitle" ++ [dquote] ++ str " as CFString, &tmp)".

Definition nested_line : text :=
  call_prefix ++ nested_first_argument ++ str ", attrName as CFString, &out)".

(** ** Frames *)

(** A computation that leaves the file system, the environment and the
    standard error as they are, only adds to the standard output, and calls
    [sys.exit] with no other code than 1. *)
Definition framed {A} (c : prog A) : Prop :=
  forall w,
    (exists out, snd (c w) = emit w out) /\
    (forall code, fst (c w) = SysExit code -> code = 1%Z).

(** ** Offsets of the records *)

(** The offsets and the two slices of a record of [content]. *)
Definition record_ok (content : text) (r : match_info) : Prop :=
  (0 <= start r < end_ r)%Z /\ (end_ r <= Z.of_nat (length content))%Z /\
  full_match r = slice content (start r) (end_ r) /\
  context r = slice content (Z.max 0 (start r - 100))
                (Z.min (Z.of_nat (length content)) (end_ r + 100)).

(** Successive matches do not overlap. *)
Definition follows (a b : Re.match_obj) : Prop := Re.m_end a <= Re.m_start b.

(** [a] lies wholly before [b]. *)
Definition before (a b : match_info) : Prop :=
  (start a < start b)%Z /\ (end_ a <= start b)%Z.

(** ** More readings of the report *)

(** The files named by the [=== <file> ===] headers, in printing order. *)
Definition headers (out : list out_line) : list path :=
  flat_map (fun l => match l with PFileHeader f => [f] | _ => [] end) out.

(** The numbers that open the match entries, in printing order. *)
Definition match_indices (out : list out_line) : list nat :=
  flat_map (fun l => match l with PMatchIndex i => [i] | _ => [] end) out.

(** The context snippets of the match entries. *)
Definition context_snippets (out : list out_line) : list text :=
  flat_map (fun l => match l with PContext c => [c] | _ => [] end) out.

(** The counts of the [Analyzing <N> Swift files...] lines. *)
Definition analyzing_counts (out : list out_line) : list nat :=
  flat_map (fun l => match l with PAnalyzing n => [n] | _ => [] end) out.

(** What a printed snippet is: at most 100 characters, the first of which
    is not whitespace. *)
Definition snippet_ok (c : text) : Prop :=
  length c <= 100 /\ forall x, hd_error c = Some x -> is_space x = false.

(** The shortest text the pattern can match: the prefix, one character for
    each group and the fixed items. *)
Definition min_match_length : nat := length call_prefix + 19.

(** A call broken over three lines after its commas, inside other text. *)
Definition multiline_call_parts : call_parts :=
  {| p_target := str "self.element";
     p_ws1 := [newline] ++ str "    ";
     p_attr := str "AXChildren";
     p_ws2 := str " ";
     p_ws3 := str " ";
     p_ws4 := [newline] ++ str "    ";
     p_out := str "childrenRef" |}.

Definition multiline_text : text :=
  str "let err = " ++ call_text multiline_call_parts ++ [newline] ++ str "return err".

(** ** What a successful run of the matcher means

    [denotes r s i j m m']: the text of [s] between the positions [i] and [j]
    is in the language of [r], and the groups of [r] turn the marks [m] into
    [m']. *)
Fixpoint denotes (r : Re.regex) (s : text) (i j : nat) (m m' : Re.marks) : Prop :=
  match r with
  | Re.Eps => j = i /\ m' = m
  | Re.Lit c => nth_error s i = Some c /\ j = S i /\ m' = m
  | Re.Repeat lo p =>
      i <= j /\ j <= length s /\ lo <= j - i /\ all_in p (Re.sub s i j) /\ m' = m
  | Re.Cat r1 r2 =>
      exists k mk, denotes r1 s i k m mk /\ denotes r2 s k j mk m'
  | Re.Group n r0 =>
      exists m0, denotes r0 s i j m m0 /\ m' = Re.set_mark n (i, j) m0
  end.

(** * Properties *)

(** ** Lists and slices *)

Lemma firstn_plus {A} (a b : nat) (l : list A) :
  firstn (a + b) l = firstn a l ++ firstn b (skipn a l).
Proof.
  revert l. induction a as [|a IH]; intros [|x l]; simpl; auto.
  - rewrite firstn_nil. reflexivity.
  - rewrite IH. reflexivity.
Qed.

Lemma sub_app (s : text) (i j k : nat) :
  i <= j -> j <= k -> Re.sub s i k = Re.sub s i j ++ Re.sub s j k.
Proof.
  intros Hij Hjk. unfold Re.sub.
  replace (k - i) with ((j - i) + (k - j)) by lia.
  rewrite firstn_plus. f_equal.
  rewrite skipn_skipn. f_equal. f_equal. lia.
Qed.

Lemma sub_length (s : text) (i j : nat) :
  i <= j -> j <= length s -> length (Re.sub s i j) = j - i.
Proof.
  intros Hij Hj. unfold Re.sub.
  rewrite length_firstn, length_skipn. lia.
Qed.

Lemma sub_one (s : text) (i : nat) (c : cp) :
  nth_error s i = Some c -> Re.sub s i (S i) = [c].
Proof.
  intros H. unfold Re.sub. replace (S i - i) with 1 by lia.
  rewrite <- hd_error_skipn in H.
  destruct (skipn i s) as [|x t]; simpl in H; [discriminate|].
  injection H as ->. reflexivity.
Qed.

Lemma sub_nil (s : text) (i : nat) : Re.sub s i i = [].
Proof. unfold Re.sub. rewrite Nat.sub_diag. reflexivity. Qed.

Lemma slice_sub (s : text) (a b : nat) :
  a <= b -> b <= length s -> slice s (Z.of_nat a) (Z.of_nat b) = Re.sub s a b.
Proof.
  intros Hab Hb. unfold slice, clamp_index, Re.sub.
  destruct (Z.ltb_spec (Z.of_nat a) 0); [lia|].
  destruct (Z.ltb_spec (Z.of_nat b) 0); [lia|].
  rewrite !Z.min_l by lia.
  rewrite Nat2Z.id. f_equal. lia.
Qed.

(** ** Soundness of the backtracking matcher *)

Lemma count_firstn (p : cp -> bool) (t : text) (c : nat) :
  c <= Re.count p t -> all_in p (firstn c t) /\ c <= length t.
Proof.
  revert c. induction t as [|x t IH]; intros c Hc; simpl in Hc.
  - assert (c = 0) by lia. subst. split; [constructor | simpl; lia].
  - destruct c as [|c]; [split; [constructor | simpl; lia]|].
    destruct (p x) eqn:Hp; [|lia].
    destruct (IH c ltac:(lia)) as [Hall Hlen].
    split; [constructor; assumption | simpl; lia].
Qed.

Lemma backtrack_some {A} (lo : nat) (k : nat -> option A) (n : nat) (r : A) :
  Re.backtrack lo k n = Some r -> exists c, lo <= c /\ c <= n /\ k c = Some r.
Proof.
  induction n as [|n IH]; simpl; intros H.
  - destruct (Nat.ltb_spec 0 lo); [discriminate|].
    destruct (k 0) eqn:Hk; [|discriminate].
    exists 0. injection H as ->. repeat split; try lia. assumption.
  - destruct (Nat.ltb_spec (S n) lo); [discriminate|].
    destruct (k (S n)) eqn:Hk.
    + exists (S n). injection H as ->. repeat split; try lia. assumption.
    + destruct (IH H) as (c & Hlo & Hc & Hkc). exists c. repeat split; try lia. assumption.
Qed.

Lemma exec_sound {A} (r : Re.regex) (s : text) :
  forall (i : nat) (m : Re.marks) (k : nat -> Re.marks -> option A) (res : A),
    i <= length s ->
    Re.exec r s i m k = Some res ->
    exists j m', denotes r s i j m m' /\ i <= j /\ j <= length s /\ k j m' = Some res.
Proof.
  induction r as [| c | lo p | r1 IH1 r2 IH2 | n r IH]; intros i m k res Hi H; simpl in H.
  - exists i, m. simpl. auto.
  - destruct (nth_error s i) as [x|] eqn:Hx; [|discriminate].
    destruct (N.eqb_spec x c) as [->|]; [|discriminate].
    exists (S i), m. simpl.
    assert (i < length s) by (apply nth_error_Some; congruence).
    repeat split; auto; lia.
  - apply backtrack_some in H. destruct H as (c & Hlo & Hc & Hk).
    apply count_firstn in Hc. destruct Hc as [Hall Hlen].
    rewrite length_skipn in Hlen.
    exists (i + c), m. simpl. unfold Re.sub.
    replace (i + c - i) with c by lia.
    repeat split; auto; lia.
  - apply IH1 in H; [|assumption].
    destruct H as (j1 & m1 & D1 & Hij1 & Hj1 & H).
    apply IH2 in H; [|assumption].
    destruct H as (j2 & m2 & D2 & Hij2 & Hj2 & H).
    exists j2, m2. simpl. repeat split; try lia; [|assumption].
    exists j1, m1. auto.
  - apply IH in H; [|assumption].
    destruct H as (j & m0 & D & Hij & Hj & H).
    exists j, (Re.set_mark n (i, j) m0). simpl. repeat split; try lia; [|assumption].
    exists m0. auto.
Qed.

Lemma denotes_lits (l : text) (s : text) :
  forall i j m m',
    i <= length s ->
    denotes (Re.lits l) s i j m m' ->
    j = i + length l /\ j <= length s /\ Re.sub s i j = l /\ m' = m.
Proof.
  induction l as [|c l IH]; intros i j m m' Hi H.
  - simpl in H. destruct H as [-> ->].
    rewrite sub_nil. simpl. repeat split; auto; lia.
  - change (Re.lits (c :: l)) with (Re.Cat (Re.Lit c) (Re.lits l)) in H.
    simpl in H. destruct H as (k & mk & (Hc & -> & ->) & H).
    assert (i < length s) by (apply nth_error_Some; congruence).
    apply IH in H; [|lia]. destruct H as (-> & Hj & Hsub & ->).
    split; [simpl; lia|]. split; [lia|]. split; [|reflexivity].
    rewrite (@sub_app s i (S i) (S i + length l)) by lia.
    rewrite (sub_one _ _ Hc), Hsub. reflexivity.
Qed.

(** ** The pattern of the script *)

Lemma sub_nonempty (s : text) (i j : nat) :
  i <= j -> j <= length s -> 1 <= j - i -> Re.sub s i j <> [].
Proof.
  intros Hij Hj H1 E. apply (f_equal (@length _)) in E.
  rewrite sub_length in E by assumption. simpl in E. lia.
Qed.

Lemma match_at_shape (s : text) (i : nat) (m : Re.match_obj) :
  i <= length s ->
  Re.match_at pattern s i = Some m ->
  exists p : call_parts,
    call_ok p /\
    Re.m_string m = s /\ Re.m_start m = i /\
    Re.m_end m = i + length (call_text p) /\ Re.m_end m <= length s /\
    Re.group m 0 = call_text p /\
    Re.group m 1 = p_target p /\ Re.group m 2 = p_attr p /\ Re.group m 3 = p_out p.
Proof.
  intros Hi H. unfold Re.match_at in H.
  apply exec_sound in H; [|assumption].
  destruct H as (j & m' & D & Hij & Hj & Hm). injection Hm as <-.
  unfold pattern in D. cbn [Re.seq denotes Re.plus Re.star] in D.
  destruct D as (k & mk & Dpre & k0 & mk0 & (m0 & (G1a & G1b & G1c & G1d & ->) & ->)
    & k1 & mk1 & (Hc & -> & ->) & k2 & mk2 & (W1a & W1b & _ & W1d & ->)
    & k3 & mk3 & (Hq1 & -> & ->) & k4 & mk4 & (m1 & (G2a & G2b & G2c & G2d & ->) & ->)
    & k5 & mk5 & (Hq2 & -> & ->) & k6 & mk6 & (W2a & W2b & _ & W2d & ->)
    & k7 & mk7 & Das & k8 & mk8 & (W3a & W3b & _ & W3d & ->)
    & k9 & mk9 & Dcf & k10 & mk10 & (W4a & W4b & _ & W4d & ->)
    & k11 & mk11 & (Ha & -> & ->) & k12 & mk12 & (m2 & (G3a & G3b & G3c & G3d & ->) & ->)
    & k13 & mk13 & (Hr & -> & ->) & -> & ->).
  apply denotes_lits in Dpre; [|assumption]. destruct Dpre as (Ek & Hk & Spre & ->).
  apply denotes_lits in Das; [|assumption]. destruct Das as (Ek7 & Hk7 & Sas & ->).
  apply denotes_lits in Dcf; [|assumption]. destruct Dcf as (Ek9 & Hk9 & Scf & ->).
  assert (Hlen : S k12 <= length s)
    by (apply Nat.le_succ_l, nth_error_Some; congruence).
  assert (Etext : Re.sub s i (S k12) =
      call_text (MkParts (Re.sub s k k0) (Re.sub s (S k0) k2) (Re.sub s (S k2) k4)
                   (Re.sub s (S k4) k6) (Re.sub s k7 k8) (Re.sub s k9 k10)
                   (Re.sub s (S k10) k12))).
  { unfold call_text. cbn [p_target p_ws1 p_attr p_ws2 p_ws3 p_ws4 p_out].
    rewrite (@sub_app s i k (S k12)) by lia.
    rewrite (@sub_app s k k0 (S k12)) by lia.
    rewrite (@sub_app s k0 (S k0) (S k12)) by lia.
    rewrite (@sub_app s (S k0) k2 (S k12)) by lia.
    rewrite (@sub_app s k2 (S k2) (S k12)) by lia.
    rewrite (@sub_app s (S k2) k4 (S k12)) by lia.
    rewrite (@sub_app s k4 (S k4) (S k12)) by lia.
    rewrite (@sub_app s (S k4) k6 (S k12)) by lia.
    rewrite (@sub_app s k6 k7 (S k12)) by lia.
    rewrite (@sub_app s k7 k8 (S k12)) by lia.
    rewrite (@sub_app s k8 k9 (S k12)) by lia.
    rewrite (@sub_app s k9 k10 (S k12)) by lia.
    rewrite (@sub_app s k10 (S k10) (S k12)) by lia.
    rewrite (@sub_app s (S k10) k12 (S k12)) by lia.
    rewrite Spre, Sas, Scf.
    rewrite (sub_one _ _ Hc), (sub_one _ _ Hq1), (sub_one _ _ Hq2),
      (sub_one _ _ Ha), (sub_one _ _ Hr).
    reflexivity. }
  eexists. split; [|split; [reflexivity|split; [reflexivity|]]].
  2: { cbn [Re.m_end Re.m_start Re.m_string Re.group Re.m_marks].
       rewrite <- Etext.
       split; [rewrite sub_length by lia; lia|].
       split; [assumption|].
       split; [reflexivity|].
       cbn. repeat split; reflexivity. }
  unfold call_ok. cbn [p_target p_ws1 p_attr p_ws2 p_ws3 p_ws4 p_out].
  repeat split; try assumption; apply sub_nonempty; lia.
Qed.

(** ** Completeness of the matcher on calls of the pattern's shape *)

Lemma skipn_cons_step (s : text) (i : nat) (c : cp) (t : text) :
  skipn i s = c :: t -> nth_error s i = Some c /\ skipn (S i) s = t.
Proof.
  intros H. split.
  - rewrite <- hd_error_skipn, H. reflexivity.
  - change (S i) with (1 + i). rewrite <- skipn_skipn, H. reflexivity.
Qed.

Lemma skipn_app_step (s : text) (i : nat) (l t : text) :
  skipn i s = l ++ t -> skipn (i + length l) s = t.
Proof.
  intros H. rewrite Nat.add_comm, <- skipn_skipn, H.
  rewrite skipn_app, skipn_all, Nat.sub_diag. reflexivity.
Qed.

Lemma sub_of_skipn (s : text) (i : nat) (l t : text) :
  skipn i s = l ++ t -> Re.sub s i (i + length l) = l.
Proof.
  intros H. unfold Re.sub. replace (i + length l - i) with (length l + 0) by lia.
  rewrite H, firstn_app_2. simpl. apply app_nil_r.
Qed.

Lemma exec_lit_eq {A} (c : cp) (s : text) (i : nat) (m : Re.marks)
    (k : nat -> Re.marks -> option A) (t : text) :
  skipn i s = c :: t -> Re.exec (Re.Lit c) s i m k = k (S i) m.
Proof.
  intros H. apply skipn_cons_step in H. destruct H as [H _].
  simpl. rewrite H, N.eqb_refl. reflexivity.
Qed.

Lemma exec_lits_eq {A} (l : text) :
  forall (s : text) (i : nat) (m : Re.marks) (k : nat -> Re.marks -> option A) (t : text),
    skipn i s = l ++ t -> Re.exec (Re.lits l) s i m k = k (i + length l) m.
Proof.
  induction l as [|c l IH]; intros s i m k t H.
  - simpl. rewrite Nat.add_0_r. reflexivity.
  - change (Re.lits (c :: l)) with (Re.Cat (Re.Lit c) (Re.lits l)).
    cbn [Re.exec]. simpl app in H.
    destruct (@skipn_cons_step s i c (l ++ t) H) as [Hn Hs].
    rewrite Hn, N.eqb_refl, (IH _ _ _ _ _ Hs). f_equal. simpl. lia.
Qed.

Lemma count_stop (p : cp -> bool) (g : text) (c : cp) (t : text) :
  all_in p g -> p c = false -> Re.count p (g ++ c :: t) = length g.
Proof.
  intros Hg Hc. induction Hg as [|x g Hx _ IH]; simpl.
  - rewrite Hc. reflexivity.
  - rewrite Hx, IH. reflexivity.
Qed.

Lemma backtrack_first {A} (lo : nat) (k : nat -> option A) (n : nat) (r : A) :
  lo <= n -> k n = Some r -> Re.backtrack lo k n = Some r.
Proof.
  intros Hlo Hk. destruct n; simpl.
  - destruct (Nat.ltb_spec 0 lo); [lia|]. rewrite Hk. reflexivity.
  - destruct (Nat.ltb_spec (S n) lo); [lia|]. rewrite Hk. reflexivity.
Qed.

(** A greedy repetition followed by a character outside its class takes the
    whole run at the first attempt. *)
Lemma exec_repeat_first {A} (lo : nat) (p : cp -> bool) (g : text) (c : cp) (t : text)
    (s : text) (i : nat) (m : Re.marks) (k : nat -> Re.marks -> option A) (res : A) :
  skipn i s = g ++ c :: t -> all_in p g -> p c = false -> lo <= length g ->
  k (i + length g) m = Some res ->
  Re.exec (Re.Repeat lo p) s i m k = Some res.
Proof.
  intros H Hg Hc Hlo Hk. cbn [Re.exec]. rewrite H, (@count_stop p g c t Hg Hc).
  apply backtrack_first; assumption.
Qed.

Section Steps.
Context {A : Type}.
Variables (s : text) (r : Re.regex) (k : nat -> Re.marks -> option A) (res : A).

Lemma step_lit (c : cp) (i : nat) (m : Re.marks) (t : text) :
  skipn i s = c :: t ->
  Re.exec r s (S i) m k = Some res ->
  Re.exec (Re.Cat (Re.Lit c) r) s i m k = Some res.
Proof.
  intros H Hr. destruct (@skipn_cons_step s i c t H) as [Hn _].
  cbn [Re.exec]. rewrite Hn, N.eqb_refl. exact Hr.
Qed.

Lemma step_lits (l : text) (i : nat) (m : Re.marks) (t : text) :
  skipn i s = l ++ t ->
  Re.exec r s (i + length l) m k = Some res ->
  Re.exec (Re.Cat (Re.lits l) r) s i m k = Some res.
Proof.
  intros H Hr. cbn [Re.exec]. erewrite exec_lits_eq by exact H. exact Hr.
Qed.

Lemma step_star (p : cp -> bool) (g : text) (c : cp) (t : text) (i : nat)
    (m : Re.marks) :
  skipn i s = g ++ c :: t -> all_in p g -> p c = false ->
  Re.exec r s (i + length g) m k = Some res ->
  Re.exec (Re.Cat (Re.star p) r) s i m k = Some res.
Proof.
  intros H Hg Hc Hr. change (Re.exec (Re.Cat (Re.star p) r) s i m k)
    with (Re.exec (Re.Repeat 0 p) s i m (fun j m' => Re.exec r s j m' k)).
  eapply exec_repeat_first; eauto. lia.
Qed.

Lemma step_group (n : nat) (p : cp -> bool) (g : text) (c : cp) (t : text)
    (i : nat) (m : Re.marks) :
  skipn i s = g ++ c :: t -> all_in p g -> p c = false -> g <> [] ->
  Re.exec r s (i + length g) (Re.set_mark n (i, i + length g) m) k = Some res ->
  Re.exec (Re.Cat (Re.Group n (Re.plus p)) r) s i m k = Some res.
Proof.
  intros H Hg Hc Hne Hr.
  change (Re.exec (Re.Cat (Re.Group n (Re.plus p)) r) s i m k)
    with (Re.exec (Re.Repeat 1 p) s i m
            (fun j m' => Re.exec r s j (Re.set_mark n (i, j) m') k)).
  eapply exec_repeat_first; eauto.
  destruct g; [congruence | simpl; lia].
Qed.
End Steps.

(** Wherever the text is a call of the shape of the pattern, the pattern
    matches there, and its groups are the three parts of the call. *)
Lemma match_at_complete (s : text) (i : nat) (p : call_parts) (rest : text) :
  call_ok p ->
  skipn i s = call_text p ++ rest ->
  exists m,
    Re.match_at pattern s i = Some m /\
    Re.m_start m = i /\ Re.m_end m = i + length (call_text p) /\
    Re.group m 1 = p_target p /\ Re.group m 2 = p_attr p /\ Re.group m 3 = p_out p.
Proof.
  intros (Ht1 & Ht & Ha1 & Ha & Ho1 & Ho & W1 & W2 & W3 & W4) H.
  destruct p as [g1 w1 g2 w2 w3 w4 g3].
  cbn [p_target p_ws1 p_attr p_ws2 p_ws3 p_ws4 p_out] in *.
  unfold call_text in *. cbn [p_target p_ws1 p_attr p_ws2 p_ws3 p_ws4 p_out] in *.
  rewrite <- !app_assoc in H.
  pose proof (@skipn_app_step _ _ _ _ H) as H1.
  pose proof (@skipn_app_step _ _ _ _ H1) as H2. cbn [app] in H2.
  pose proof (proj2 (@skipn_cons_step _ _ _ _ H2)) as H3.
  pose proof (@skipn_app_step _ _ _ _ H3) as H4. cbn [app] in H4.
  pose proof (proj2 (@skipn_cons_step _ _ _ _ H4)) as H5.
  pose proof (@skipn_app_step _ _ _ _ H5) as H6. cbn [app] in H6.
  pose proof (proj2 (@skipn_cons_step _ _ _ _ H6)) as H7.
  pose proof (@skipn_app_step _ _ _ _ H7) as H8.
  pose proof (@skipn_app_step _ _ _ _ H8) as H9.
  pose proof (@skipn_app_step _ _ _ _ H9) as H10.
  pose proof (@skipn_app_step _ _ _ _ H10) as H11.
  pose proof (@skipn_app_step _ _ _ _ H11) as H12. cbn [app] in H12.
  pose proof (proj2 (@skipn_cons_step _ _ _ _ H12)) as H13.
  pose proof (@skipn_app_step _ _ _ _ H13) as H14. cbn [app] in H14.
  eexists. split.
  - unfold Re.match_at, pattern. cbn [Re.seq].
    eapply step_lits; [exact H|].
    eapply step_group; [exact H1 | exact Ht | reflexivity | exact Ht1 |].
    eapply step_lit; [exact H2|].
    eapply step_star; [exact H3 | exact W1 | reflexivity |].
    eapply step_lit; [exact H4|].
    eapply step_group; [exact H5 | exact Ha | reflexivity | exact Ha1 |].
    eapply step_lit; [exact H6|].
    eapply step_star; [exact H7 | exact W2 | reflexivity |].
    eapply step_lits; [exact H8|].
    eapply step_star; [exact H9 | exact W3 | reflexivity |].
    eapply step_lits; [exact H10|].
    eapply step_star; [exact H11 | exact W4 | reflexivity |].
    eapply step_lit; [exact H12|].
    eapply step_group; [exact H13 | exact Ho | reflexivity | exact Ho1 |].
    eapply step_lit; [exact H14|].
    cbn [Re.exec]. reflexivity.
  - cbn [Re.m_start Re.m_end Re.group Re.m_marks Re.m_string].
    split; [reflexivity|]. split.
    + rewrite !length_app. simpl. lia.
    + cbn. split; [exact (@sub_of_skipn _ _ _ _ H1)|].
      split; [exact (@sub_of_skipn _ _ _ _ H5) | exact (@sub_of_skipn _ _ _ _ H13)].
Qed.

(** ** finditer *)

Lemma match_at_bounds (r : Re.regex) (s : text) (i : nat) (m : Re.match_obj) :
  i <= length s ->
  Re.match_at r s i = Some m ->
  Re.m_string m = s /\ Re.m_start m = i /\ i <= Re.m_end m /\ Re.m_end m <= length s.
Proof.
  intros Hi H. unfold Re.match_at in H.
  apply exec_sound in H; [|assumption].
  destruct H as (j & m' & _ & Hij & Hj & Hm). injection Hm as <-.
  simpl. auto.
Qed.

Lemma finditer_from_In (r : Re.regex) (s : text) (fuel : nat) :
  forall pos m,
    In m (Re.finditer_from fuel r s pos) ->
    exists i, pos <= i /\ i <= length s /\ Re.match_at r s i = Some m.
Proof.
  induction fuel as [|fuel IH]; intros pos m H; simpl in H; [contradiction|].
  destruct (Nat.ltb_spec (length s) pos) as [|Hpos]; [contradiction|].
  destruct (Re.match_at r s pos) as [m0|] eqn:Hm.
  - destruct H as [<-|H].
    + exists pos. auto.
    + apply IH in H. destruct H as (i & Hi & Hlen & Hat).
      exists i. repeat split; auto; lia.
  - apply IH in H. destruct H as (i & Hi & Hlen & Hat).
    exists i. repeat split; auto; lia.
Qed.

Lemma finditer_from_lower (r : Re.regex) (s : text) (fuel : nat) :
  forall pos, Forall (fun m => pos <= Re.m_start m) (Re.finditer_from fuel r s pos).
Proof.
  intros pos. apply Forall_forall. intros m H.
  apply finditer_from_In in H. destruct H as (i & Hi & Hlen & Hat).
  apply match_at_bounds in Hat; [|assumption]. lia.
Qed.

Lemma finditer_from_sorted (r : Re.regex) (s : text) (fuel : nat) :
  forall pos, StronglySorted follows (Re.finditer_from fuel r s pos).
Proof.
  induction fuel as [|fuel IH]; intros pos; simpl; [constructor|].
  destruct (Nat.ltb_spec (length s) pos) as [|Hpos]; [constructor|].
  destruct (Re.match_at r s pos) as [m0|] eqn:Hm; [|apply IH].
  constructor; [apply IH|].
  eapply Forall_impl; [|apply finditer_from_lower].
  intros b Hb. unfold follows. simpl in Hb. lia.
Qed.

(** The fuel of [finditer] is enough: more of it finds the same matches. *)
Lemma finditer_from_fuel (r : Re.regex) (s : text) (f1 : nat) :
  forall f2 pos,
    S (length s) - pos <= f1 -> S (length s) - pos <= f2 ->
    Re.finditer_from f1 r s pos = Re.finditer_from f2 r s pos.
Proof.
  induction f1 as [|f1 IH]; intros f2 pos H1 H2.
  - destruct f2 as [|f2]; [reflexivity|]. simpl.
    destruct (Nat.ltb_spec (length s) pos); [reflexivity|lia].
  - destruct f2 as [|f2].
    + simpl. destruct (Nat.ltb_spec (length s) pos); [reflexivity|lia].
    + simpl. destruct (Nat.ltb_spec (length s) pos); [reflexivity|].
      destruct (Re.match_at r s pos) as [m0|].
      * f_equal. apply IH; lia.
      * apply IH; lia.
Qed.

Lemma finditer_more_fuel (r : Re.regex) (s : text) (extra : nat) :
  Re.finditer_from (S (length s) + extra) r s 0 = Re.finditer r s.
Proof. unfold Re.finditer. apply finditer_from_fuel; lia. Qed.

(** With enough fuel, the leftmost position at which the pattern matches is
    found: no match is lost. *)
Lemma finditer_from_finds (r : Re.regex) (s : text) (fuel : nat) :
  forall pos i m,
    S (length s) - pos <= fuel -> pos <= i -> i <= length s ->
    Re.match_at r s i = Some m ->
    Re.finditer_from fuel r s pos <> [].
Proof.
  induction fuel as [|fuel IH]; intros pos i m Hf Hpi Hi Hm; [lia|].
  simpl. destruct (Nat.ltb_spec (length s) pos); [lia|].
  destruct (Re.match_at r s pos) as [m0|] eqn:Hp; [discriminate|].
  assert (pos <> i) by congruence.
  apply (IH (S pos) i m); auto; lia.
Qed.

(** ** analyze_patterns *)

Lemma analyze_text_In (content : text) (r : match_info) :
  In r (analyze_text content) ->
  exists m i,
    r = info_of_match content m /\ i <= length content /\
    Re.match_at pattern content i = Some m.
Proof.
  unfold analyze_text. intros H. apply in_map_iff in H.
  destruct H as (m & <- & H). unfold Re.finditer in H.
  apply finditer_from_In in H. destruct H as (i & _ & Hi & Hat).
  exists m, i. auto.
Qed.

Lemma analyze_text_shape (content : text) (r : match_info) :
  In r (analyze_text content) ->
  exists (p : call_parts) (i : nat),
    call_ok p /\
    skipn i content = call_text p ++ skipn (i + length (call_text p)) content /\
    i + length (call_text p) <= length content /\
    start r = Z.of_nat i /\ end_ r = Z.of_nat (i + length (call_text p)) /\
    full_match r = call_text p /\
    element r = strip (p_target p) /\
    attribute r = p_attr p /\
    var_ref r = strip (p_out p).
Proof.
  intros H. apply analyze_text_In in H. destruct H as (m & i & -> & Hi & Hat).
  apply match_at_shape in Hat; [|assumption].
  destruct Hat as (p & Hok & Hs & Hst & Hend & Hlen & G0 & G1 & G2 & G3).
  exists p, i. unfold info_of_match. cbn [start end_ full_match element attribute var_ref].
  rewrite G0, G1, G2, G3, Hst, Hend.
  split; [assumption|].
  split; [|repeat split; auto; lia].
  rewrite (Nat.add_comm i), <- skipn_skipn.
  rewrite <- G0 at 1. unfold Re.group. rewrite Hs, Hst, Hend.
  unfold Re.sub. replace (i + length (call_text p) - i) with (length (call_text p)) by lia.
  symmetry. apply firstn_skipn.
Qed.

(** A text that holds a call of the shape of the pattern has a record. *)
Lemma analyze_text_finds (content : text) (i : nat) (p : call_parts) (rest : text) :
  call_ok p ->
  skipn i content = call_text p ++ rest ->
  analyze_text content <> [].
Proof.
  intros Hok H.
  assert (Hi : i <= length content).
  { destruct (Nat.le_gt_cases i (length content)) as [|Hgt]; [assumption|].
    rewrite skipn_all2 in H by lia. unfold call_text, call_prefix in H.
    discriminate H. }
  destruct (@match_at_complete content i p rest Hok H) as (m & Hm & _).
  unfold analyze_text. intros E. apply map_eq_nil in E. revert E.
  unfold Re.finditer. apply (@finditer_from_finds pattern content _ 0 i m); auto; lia.
Qed.

Lemma text_eqb_eq (a b : text) : text_eqb a b = true <-> a = b.
Proof.
  revert b. induction a as [|x a IH]; intros [|y b]; simpl; split; intros H;
    try reflexivity; try discriminate.
  - apply andb_true_iff in H. destruct H as [Hxy Hab].
    apply N.eqb_eq in Hxy. apply IH in Hab. congruence.
  - injection H as -> ->. apply andb_true_iff. split.
    + apply N.eqb_refl.
    + apply IH. reflexivity.
Qed.

Lemma in_list_In (x : text) (l : list text) : in_list x l = true <-> In x l.
Proof.
  unfold in_list. rewrite existsb_exists. split.
  - intros (y & Hy & E). apply text_eqb_eq in E. subst. assumption.
  - intros H. exists x. split; [assumption|]. apply text_eqb_eq. reflexivity.
Qed.

Lemma in_list_not_In (x : text) (l : list text) : ~ In x l -> in_list x l = false.
Proof.
  intros H. destruct (in_list x l) eqn:E; [|reflexivity].
  apply in_list_In in E. contradiction.
Qed.

(** In a text [a ++ c :: x] with no [c] in [a], the part before the first [c]
    is [a]. *)
Lemma first_separator (c : cp) (a b x y : text) :
  all_in (Re.other_than c) a -> all_in (Re.other_than c) b ->
  a ++ c :: x = b ++ c :: y -> a = b /\ x = y.
Proof.
  unfold all_in, Re.other_than. revert b.
  induction a as [|u a IH]; intros [|v b] Ha Hb E; simpl in E.
  - injection E as ->. auto.
  - injection E as <- _. inversion Hb as [|? ? Hv _]; subst.
    rewrite N.eqb_refl in Hv. discriminate.
  - injection E as -> _. inversion Ha as [|? ? Hu _]; subst.
    rewrite N.eqb_refl in Hu. discriminate.
  - injection E as -> E. inversion Ha; inversion Hb; subst.
    destruct (IH b) as [-> ->]; auto.
Qed.

Lemma lstrip_spaces (ws : text) (c : cp) (t : text) :
  all_in is_space ws -> is_space c = false -> lstrip (ws ++ c :: t) = c :: t.
Proof.
  intros Hws Hc. induction Hws as [|x ws Hx _ IH]; simpl.
  - rewrite Hc. reflexivity.
  - rewrite Hx. exact IH.
Qed.

(** * The claims *)

(** ** The classifier *)

(** C1. An attribute name of the collection list AXChildren, AXWindows,
    AXMenus, AXTabs gets the text SafeAttributeAccess.getArrayAttribute(,
    the target, the attribute between quotes after [, attribute: ], and the
    closing parenthesis; a name of the string list gets the same text with
    getStringAttribute, one of the boolean list with getBoolAttribute,
    AXFrame with getRectAttribute, AXPosition with getPointAttribute, AXSize
    with getSizeAttribute, and a name in none of the six lists with the
    generic getAttribute. *)
Theorem suggest_replacement_by_category (r : match_info) :
  (In (attribute r) [str "AXChildren"; str "AXWindows"; str "AXMenus"; str "AXTabs"] ->
   suggest_replacement r
   = str "SafeAttributeAccess.getArrayAttribute(" ++ element r
     ++ str ", attribute: " ++ [dquote] ++ attribute r ++ [dquote] ++ str ")") /\
  (In (attribute r)
      [str "AXRole"; str "AXTitle"; str "AXDescription"; str "AXIdentifier";
       str "AXValue"] ->
   suggest_replacement r
   = str "SafeAttributeAccess.getStringAttribute(" ++ element r
     ++ str ", attribute: " ++ [dquote] ++ attribute r ++ [dquote] ++ str ")") /\
  (In (attribute r)
      [str "AXEnabled"; str "AXFocused"; str "AXSelected"; str "AXHidden";
       str "AXVisible"] ->
   suggest_replacement r
   = str "SafeAttributeAccess.getBoolAttribute(" ++ element r
     ++ str ", attribute: " ++ [dquote] ++ attribute r ++ [dquote] ++ str ")") /\
  (attribute r = str "AXFrame" ->
   suggest_replacement r
   = str "SafeAttributeAccess.getRectAttribute(" ++ element r
     ++ str ", attribute: " ++ [dquote] ++ str "AXFrame" ++ [dquote] ++ str ")") /\
  (attribute r = str "AXPosition" ->
   suggest_replacement r
   = str "SafeAttributeAccess.getPointAttribute(" ++ element r
     ++ str ", attribute: " ++ [dquote] ++ str "AXPosition" ++ [dquote] ++ str ")") /\
  (attribute r = str "AXSize" ->
   suggest_replacement r
   = str "SafeAttributeAccess.getSizeAttribute(" ++ element r
     ++ str ", attribute: " ++ [dquote] ++ str "AXSize" ++ [dquote] ++ str ")") /\
  (~ In (attribute r)
       [str "AXChildren"; str "AXWindows"; str "AXMenus"; str "AXTabs";
        str "AXRole"; str "AXTitle"; str "AXDescription"; str "AXIdentifier";
        str "AXValue";
        str "AXEnabled"; str "AXFocused"; str "AXSelected"; str "AXHidden";
        str "AXVisible";
        str "AXFrame"; str "AXPosition"; str "AXSize"] ->
   suggest_replacement r
   = str "SafeAttributeAccess.getAttribute(" ++ element r
     ++ str ", attribute: " ++ [dquote] ++ attribute r ++ [dquote] ++ str ")").
Proof.
  destruct r as [e a v fm ctx st en]. cbn [attribute element].
  unfold suggest_replacement. cbn [attribute element].
  repeat split; intros H.
  - simpl in H. repeat (destruct H as [<-|H]; [reflexivity|]). contradiction.
  - simpl in H. repeat (destruct H as [<-|H]; [reflexivity|]). contradiction.
  - simpl in H. repeat (destruct H as [<-|H]; [reflexivity|]). contradiction.
  - subst a. reflexivity.
  - subst a. reflexivity.
  - subst a. reflexivity.
  - assert (Hc : ~ In a collection_attributes) by (intros Hin; apply H; simpl in *; tauto).
    assert (Hs : ~ In a string_attributes) by (intros Hin; apply H; simpl in *; tauto).
    assert (Hb : ~ In a bool_attributes) by (intros Hin; apply H; simpl in *; tauto).
    assert (Hr : ~ In a rect_attributes) by (intros Hin; apply H; simpl in *; tauto).
    assert (Hp : ~ In a point_attributes) by (intros Hin; apply H; simpl in *; tauto).
    assert (Hz : ~ In a size_attributes) by (intros Hin; apply H; simpl in *; tauto).
    rewrite !in_list_not_In by assumption. reflexivity.
Qed.

(** The instances of C1 at AXChildren, AXRole, AXHidden, AXFrame, AXPosition,
    AXSize and at AXCustomFoo, which is in no list. *)
Lemma suggest_replacement_by_category_witness :
  let r a := MkInfo (str "element") (str a) (str "ref") [] [] 0 0 in
  suggest_replacement (r "AXChildren"%string)
    = str "SafeAttributeAccess.getArrayAttribute(element, attribute: " ++ [dquote]
      ++ str "AXChildren" ++ [dquote] ++ str ")" /\
  suggest_replacement (r "AXRole"%string)
    = str "SafeAttributeAccess.getStringAttribute(element, attribute: " ++ [dquote]
      ++ str "AXRole" ++ [dquote] ++ str ")" /\
  suggest_replacement (r "AXHidden"%string)
    = str "SafeAttributeAccess.getBoolAttribute(element, attribute: " ++ [dquote]
      ++ str "AXHidden" ++ [dquote] ++ str ")" /\
  suggest_replacement (r "AXFrame"%string)
    = str "SafeAttributeAccess.getRectAttribute(element, attribute: " ++ [dquote]
      ++ str "AXFrame" ++ [dquote] ++ str ")" /\
  suggest_replacement (r "AXPosition"%string)
    = str "SafeAttributeAccess.getPointAttribute(element, attribute: " ++ [dquote]
      ++ str "AXPosition" ++ [dquote] ++ str ")" /\
  suggest_replacement (r "AXSize"%string)
    = str "SafeAttributeAccess.getSizeAttribute(element, attribute: " ++ [dquote]
      ++ str "AXSize" ++ [dquote] ++ str ")" /\
  suggest_replacement (r "AXCustomFoo"%string)
    = str "SafeAttributeAccess.getAttribute(element, attribute: " ++ [dquote]
      ++ str "AXCustomFoo" ++ [dquote] ++ str ")".
Proof.
  intros r.
  destruct (suggest_replacement_by_category (r "AXChildren"%string)) as (H & _).
  split; [rewrite H; [reflexivity | simpl; auto]|]. clear H.
  destruct (suggest_replacement_by_category (r "AXRole"%string)) as (_ & H & _).
  split; [rewrite H; [reflexivity | simpl; auto]|]. clear H.
  destruct (suggest_replacement_by_category (r "AXHidden"%string)) as (_ & _ & H & _).
  split; [rewrite H; [reflexivity | simpl; auto 6]|]. clear H.
  destruct (suggest_replacement_by_category (r "AXFrame"%string))
    as (_ & _ & _ & H & _).
  split; [rewrite H; reflexivity|]. clear H.
  destruct (suggest_replacement_by_category (r "AXPosition"%string))
    as (_ & _ & _ & _ & H & _).
  split; [rewrite H; reflexivity|]. clear H.
  destruct (suggest_replacement_by_category (r "AXSize"%string))
    as (_ & _ & _ & _ & _ & H & _).
  split; [rewrite H; reflexivity|]. clear H.
  destruct (suggest_replacement_by_category (r "AXCustomFoo"%string))
    as (_ & _ & _ & _ & _ & _ & H).
  rewrite H; [reflexivity|].
  simpl. intros Hin.
  repeat (destruct Hin as [Hin|Hin]; [discriminate Hin|]). exact Hin.
Defined.

(** C2, as stated, fails: two records with the attribute AXTitle, one for
    [element] and one for [button], get different suggestion texts. *)
Lemma suggest_replacement_depends_on_element :
  attribute title_of_element = attribute title_of_button /\
  suggest_replacement title_of_element <> suggest_replacement title_of_button.
Proof. split; [reflexivity|]. vm_compute. discriminate. Qed.

(** C2, amended. The suggestion is a function of the attribute name and the
    target expression: two records that agree on both get the same
    suggestion text, whatever their other fields. *)
Theorem suggest_replacement_pure (r1 r2 : match_info) :
  attribute r1 = attribute r2 ->
  element r1 = element r2 ->
  suggest_replacement r1 = suggest_replacement r2.
Proof.
  intros Ha He. unfold suggest_replacement. rewrite Ha, He. reflexivity.
Qed.

Lemma suggest_replacement_pure_witness :
  suggest_replacement title_of_element
  = suggest_replacement
      {| element := str "element"; attribute := str "AXTitle"; var_ref := str "other";
         full_match := []; context := str "elsewhere"; start := 7; end_ := 9 |}.
Proof. apply suggest_replacement_pure; reflexivity. Defined.

(** ** The matcher *)

(** C3. The text that is the line with AXTitle for [element] has exactly one
    match, with attribute AXTitle, target [element] and the getStringAttribute
    suggestion (also when the line ends in a newline); the line with AXFrame
    for [button] gets the getRectAttribute suggestion. *)
Theorem concrete_scenarios :
  let report content :=
    map (fun r => (attribute r, element r, suggest_replacement r)) (analyze_text content) in
  report title_line
  = [(str "AXTitle", str "element",
      str "SafeAttributeAccess.getStringAttribute(element, attribute: " ++ [dquote]
      ++ str "AXTitle" ++ [dquote] ++ str ")")] /\
  report (title_line ++ [newline]) = report title_line /\
  map suggest_replacement (analyze_text frame_line)
  = [str "SafeAttributeAccess.getRectAttribute(button, attribute: " ++ [dquote]
     ++ str "AXFrame" ++ [dquote] ++ str ")"] /\
  map suggest_replacement (analyze_text (frame_line ++ [newline]))
  = map suggest_replacement (analyze_text frame_line).
Proof. vm_compute. repeat split; reflexivity. Qed.

(** C4, as stated, fails: in the call with blanks around its arguments the
    characters up to the first comma are [ element ] and those after the
    ampersand are [ titleRef ], and the record holds [element] and
    [titleRef]. *)
Lemma fields_are_stripped :
  call_ok padded_parts /\
  map (fun r => (full_match r, element r, var_ref r)) (analyze_text padded_line)
  = [(call_text padded_parts, str "element", str "titleRef")] /\
  str "element" <> p_target padded_parts /\
  str "titleRef" <> p_out padded_parts.
Proof.
  split.
  - unfold call_ok, all_in. cbn [padded_parts p_target p_attr p_out p_ws1 p_ws2 p_ws3 p_ws4].
    repeat split; try discriminate; vm_compute; repeat constructor.
  - vm_compute. repeat split; discriminate.
Qed.

(** C4, amended. The matched text of every record is a call of the shape of
    the pattern; the target-expression field is the text between the opening
    parenthesis and the first comma with the whitespace at its two ends
    removed, and the output-variable field is the text between the ampersand
    and the closing parenthesis, stripped the same way. *)
Theorem record_fields (content : text) (r : match_info) :
  In r (analyze_text content) ->
  exists p : call_parts,
    call_ok p /\ full_match r = call_text p /\
    element r = strip (p_target p) /\ var_ref r = strip (p_out p).
Proof.
  intros H. apply analyze_text_shape in H.
  destruct H as (p & i & Hok & _ & _ & _ & _ & Hfm & He & _ & Hv).
  exists p. auto.
Qed.

Lemma record_fields_witness :
  exists p : call_parts,
    call_ok p /\
    call_text padded_parts = call_text p /\
    str "element" = strip (p_target p) /\ str "titleRef" = strip (p_out p).
Proof.
  apply (@record_fields padded_line
           (MkInfo (str "element") (str "AXTitle") (str "titleRef")
                   (call_text padded_parts) padded_line 0 76)).
  vm_compute. left. reflexivity.
Defined.

(** C5, as stated, fails: in [nested_line] the attribute argument of the
    call is the variable [attrName], and yet the call has a record, which
    starts at its offset 0: the first comma is the one inside the first
    argument, and the quoted literal after it is taken for the attribute. *)
Lemma nested_call_is_matched :
  nested_line
  = call_prefix ++ nested_first_argument ++ str ", " ++ str "attrName as CFString"
    ++ str ", &out)" /\
  hd_error (str "attrName as CFString") <> Some dquote /\
  map (fun r => (start r, end_ r, element r, attribute r, var_ref r))
    (analyze_text nested_line)
  = [(0%Z, 66%Z, str "pick(a", str "AXTitle", str "tmp")].
Proof. vm_compute. repeat split. discriminate. Qed.

Lemma no_quote_not_quoted (rest : text) :
  hd_error (lstrip rest) <> Some dquote -> ~ quoted_attribute rest.
Proof.
  intros H (ws & attr & ws' & tail & Hws & _ & _ & _ & ->). apply H.
  cbn [app]. rewrite lstrip_spaces; [reflexivity | assumption | reflexivity].
Qed.

(** C5, amended. A call whose first argument holds no comma and whose
    attribute argument is not written as a quoted literal gets no record:
    when the text at offset [i] is the call prefix, a first argument
    [target] without a comma, a comma, and then text [rest] that is not an
    attribute written as a quoted literal, no record starts at [i]. *)
Theorem unquoted_attribute_not_matched
    (content : text) (i : nat) (target rest : text) :
  skipn i content = call_prefix ++ target ++ [comma] ++ rest ->
  all_in (Re.other_than comma) target ->
  ~ quoted_attribute rest ->
  forall r, In r (analyze_text content) -> start r <> Z.of_nat i.
Proof.
  intros Hskip Htarget Hrest r Hr Hstart.
  apply analyze_text_shape in Hr.
  destruct Hr as (p & i' & Hok & Hsk & _ & Hst & _).
  assert (i' = i) by lia. subst i'.
  rewrite Hskip in Hsk. unfold call_text in Hsk.
  rewrite <- !app_assoc in Hsk.
  apply app_inv_head in Hsk. simpl in Hsk.
  destruct Hok as (_ & Ht & Ha1 & Ha & _ & _ & Hw1 & Hw2 & _).
  apply first_separator in Hsk; [|assumption|assumption].
  destruct Hsk as [_ ->].
  apply Hrest. exists (p_ws1 p), (p_attr p), (p_ws2 p).
  eexists. repeat split; assumption.
Qed.

Lemma unquoted_attribute_not_matched_witness :
  analyze_text two_calls = [second_call] /\ start second_call <> 0%Z.
Proof.
  split; [vm_compute; reflexivity|].
  apply (@unquoted_attribute_not_matched two_calls 0 (str "element")
           (str " kAXTitleAttribute as CFString, &titleRef)" ++ [newline] ++ title_line)).
  - reflexivity.
  - vm_compute. repeat constructor.
  - apply no_quote_not_quoted. vm_compute. discriminate.
  - vm_compute. left. reflexivity.
Defined.

Lemma match_nonempty (s : text) (i : nat) (m : Re.match_obj) :
  i <= length s -> Re.match_at pattern s i = Some m -> Re.m_start m < Re.m_end m.
Proof.
  intros Hi H. apply match_at_shape in H; [|assumption].
  destruct H as (p & _ & _ & Hst & Hend & _).
  rewrite Hst, Hend. unfold call_text, call_prefix.
  rewrite length_app. simpl. lia.
Qed.

Lemma sorted_map {A B} (R : A -> A -> Prop) (R' : B -> B -> Prop) (P : A -> Prop)
    (f : A -> B) (l : list A) :
  (forall a b, P a -> P b -> R a b -> R' (f a) (f b)) ->
  Forall P l -> StronglySorted R l -> StronglySorted R' (map f l).
Proof.
  intros HR HP HS. induction HS as [|a l HS IH Hall]; simpl; [constructor|].
  inversion HP as [|? ? Pa Pl]; subst.
  constructor; [apply IH; assumption|].
  apply Forall_map. rewrite Forall_forall in *.
  intros b Hb. apply HR; auto.
Qed.

(** C10. Every record of a text has offsets with
    [0 <= start < end <= len(content)], its matched text is
    [content[start:end]], its context is
    [content[max(0, start-100):min(len(content), end+100)]], and the records
    come in increasing offset order without overlap. *)
Theorem analyze_text_offsets (content : text) :
  Forall (record_ok content) (analyze_text content) /\
  StronglySorted before (analyze_text content).
Proof.
  split.
  - apply Forall_forall. intros r Hr.
    apply analyze_text_In in Hr. destruct Hr as (m & i & -> & Hi & Hat).
    pose proof (match_nonempty _ Hi Hat) as Hne.
    apply match_at_bounds in Hat; [|assumption].
    destruct Hat as (Hs & Hst & Hle & Hend).
    unfold record_ok, info_of_match.
    cbn [start end_ full_match context].
    repeat split; try lia.
    rewrite slice_sub by lia. unfold Re.group. rewrite Hs. reflexivity.
  - unfold analyze_text.
    apply sorted_map with (R := follows)
      (P := fun m => Re.m_start m < Re.m_end m).
    + intros a b Ha Hb Hab. unfold follows in Hab. unfold before, info_of_match.
      cbn [start end_]. lia.
    + apply Forall_forall. intros m Hm. unfold Re.finditer in Hm.
      apply finditer_from_In in Hm. destruct Hm as (i & _ & Hi & Hat).
      apply (match_nonempty _ Hi Hat).
    + apply finditer_from_sorted.
Qed.

(** ** The run of the program *)

Lemma quiet_no_faults : quiet no_faults.
Proof. repeat split. Qed.

Lemma emit_emit (w : world) (a b : list out_line) :
  emit (emit w a) b = emit w (a ++ b).
Proof. unfold emit. simpl. rewrite app_assoc. reflexivity. Qed.

Lemma emit_nil (w : world) : emit w [] = w.
Proof. destruct w. unfold emit. simpl. rewrite app_nil_r. reflexivity. Qed.

Lemma print_run (l : out_line) (w : world) :
  quiet (env w) -> print l w = (Ret tt, emit w [l]).
Proof.
  intros (_ & _ & Hp & _). unfold print. rewrite Hp. reflexivity.
Qed.

Lemma print_bind {B} (l : out_line) (k : unit -> prog B) (w : world) :
  quiet (env w) -> bind (print l) k w = k tt (emit w [l]).
Proof.
  intros Hq. unfold bind. rewrite (@print_run l w Hq). reflexivity.
Qed.

Lemma analyze_patterns_ok (d f : path) (w : world) (content : text) :
  fs_read (files w) d f = Some content ->
  analyze_patterns d f w = (Ret (analyze_text content), w).
Proof.
  intros H. unfold analyze_patterns, bind, open_read. rewrite H. reflexivity.
Qed.

Lemma analyze_patterns_fail (d f : path) (w : world) :
  fs_read (files w) d f = None -> analyze_patterns d f w = (Uncaught, w).
Proof.
  intros H. unfold analyze_patterns, bind, open_read. rewrite H. reflexivity.
Qed.

Lemma report_matches_run (ms : list match_info) :
  forall i w,
    quiet (env w) ->
    report_matches i ms w = (Ret tt, emit w (match_entries i ms)).
Proof.
  induction ms as [|m ms IH]; intros i w Hq; simpl.
  - unfold ret. rewrite emit_nil. reflexivity.
  - rewrite !print_bind by exact Hq. rewrite IH by exact Hq.
    rewrite !emit_emit. reflexivity.
Qed.

Lemma scan_files_ok (d : path) (fl : list path) :
  forall total w,
    quiet (env w) ->
    all_readable (files w) d fl ->
    scan_files d fl total w
    = (Ret (total + list_sum (map (fun f => length (matches_of (files w) d f)) fl)),
       emit w (blocks (files w) d fl)).
Proof.
  induction fl as [|f fl IH]; intros total w Hq Hr; simpl.
  - unfold ret. rewrite emit_nil, Nat.add_0_r. reflexivity.
  - assert (Hf : fs_read (files w) d f <> None) by (apply Hr; left; reflexivity).
    assert (Hfl : all_readable (files w) d fl) by (intros g Hg; apply Hr; right; assumption).
    destruct (fs_read (files w) d f) as [content|] eqn:E; [|congruence].
    assert (Hm : matches_of (files w) d f = analyze_text content)
      by (unfold matches_of; rewrite E; reflexivity).
    unfold bind at 1. rewrite (analyze_patterns_ok _ _ _ E).
    unfold blocks. cbn [flat_map map list_sum fold_right].
    fold (blocks (files w) d fl). rewrite Hm. unfold file_block.
    destruct (nonempty (analyze_text content)) eqn:Hne.
    + rewrite !print_bind by exact Hq. unfold bind at 1.
      rewrite report_matches_run by exact Hq.
      rewrite IH; [|exact Hq|exact Hfl]. rewrite !emit_emit. cbn [files emit].
      rewrite <- Nat.add_assoc, <- !app_assoc. reflexivity.
    + rewrite IH by assumption.
      destruct (analyze_text content); [|discriminate]. simpl. reflexivity.
Qed.

Lemma readable_or_not (fs : filesystem) (d : path) (fl : list path) :
  all_readable fs d fl \/
  exists good bad rest,
    fl = good ++ bad :: rest /\ all_readable fs d good /\ fs_read fs d bad = None.
Proof.
  induction fl as [|f fl IH].
  - left. intros f [].
  - destruct (fs_read fs d f) as [content|] eqn:E.
    + destruct IH as [IH | (good & bad & rest & -> & Hg & Hb)].
      * left. intros g [<-|Hg]; [congruence | apply IH; assumption].
      * right. exists (f :: good), bad, rest. repeat split; auto.
        intros g [<-|Hin]; [congruence | apply Hg; assumption].
    + right. exists [], f, fl. repeat split; auto. intros g [].
Qed.

(** The first file that cannot be read ends the loop with an exception,
    after the blocks of the files before it. *)
Lemma scan_files_fail (d : path) (good : list path) (bad : path) (rest : list path) :
  forall total w,
    quiet (env w) ->
    all_readable (files w) d good ->
    fs_read (files w) d bad = None ->
    scan_files d (good ++ bad :: rest) total w
    = (Uncaught, emit w (blocks (files w) d good)).
Proof.
  induction good as [|f good IH]; intros total w Hq Hg Hb; simpl.
  - unfold bind. rewrite (analyze_patterns_fail _ _ _ Hb).
    unfold blocks. simpl. rewrite emit_nil. reflexivity.
  - assert (Hf : fs_read (files w) d f <> None) by (apply Hg; left; reflexivity).
    assert (Hgood : all_readable (files w) d good)
      by (intros g Hin; apply Hg; right; assumption).
    destruct (fs_read (files w) d f) as [content|] eqn:E; [|congruence].
    assert (Hm : matches_of (files w) d f = analyze_text content)
      by (unfold matches_of; rewrite E; reflexivity).
    unfold bind at 1. rewrite (analyze_patterns_ok _ _ _ E).
    unfold blocks. cbn [flat_map]. fold (blocks (files w) d good).
    rewrite Hm. unfold file_block.
    destruct (nonempty (analyze_text content)) eqn:Hne.
    + rewrite !print_bind by exact Hq. unfold bind at 1.
      rewrite report_matches_run by exact Hq.
      rewrite IH; [|exact Hq|exact Hgood|exact Hb].
      rewrite !emit_emit. cbn [files emit].
      rewrite <- !app_assoc. reflexivity.
    + rewrite IH by assumption. reflexivity.
Qed.

Lemma files_with_matches_ok (d : path) (fl : list path) :
  forall w,
    all_readable (files w) d fl ->
    files_with_matches d fl w = (Ret (filter (has_matches (files w) d) fl), w).
Proof.
  induction fl as [|f fl IH]; intros w Hr; simpl; [reflexivity|].
  assert (Hf : fs_read (files w) d f <> None) by (apply Hr; left; reflexivity).
  assert (Hfl : all_readable (files w) d fl) by (intros g Hg; apply Hr; right; assumption).
  destruct (fs_read (files w) d f) as [content|] eqn:E; [|congruence].
  unfold bind at 1. rewrite (analyze_patterns_ok _ _ _ E).
  unfold bind at 1. rewrite IH by assumption.
  assert (Hh : has_matches (files w) d f = nonempty (analyze_text content))
    by (unfold has_matches, matches_of; rewrite E; reflexivity).
  cbn [filter]. rewrite Hh. reflexivity.
Qed.

(** The ways a call of [main] can go in a quiet environment. *)
Lemma main_usage (argv : list string) (w : world) :
  quiet (env w) ->
  length argv <> 2 -> main argv w = (SysExit 1, emit w [PUsage]).
Proof.
  intros Hq H. unfold main.
  destruct (Nat.eqb_spec (length argv) 2); [contradiction|].
  cbn [negb]. rewrite print_bind by exact Hq. reflexivity.
Qed.

Lemma path_exists_run (p : path) (w : world) :
  quiet (env w) -> path_exists p w = (Ret (fs_exists (files w) p), w).
Proof.
  intros (He & _). unfold path_exists. rewrite He. reflexivity.
Qed.

Lemma rglob_swift_run (p : path) (w : world) :
  quiet (env w) -> rglob_swift p w = (Ret (fs_rglob (files w) p), w).
Proof.
  intros (_ & Hr & _). unfold rglob_swift. rewrite Hr. reflexivity.
Qed.

Lemma main_no_directory (argv : list string) (w : world) :
  quiet (env w) ->
  length argv = 2 ->
  fs_exists (files w) (nth 1 argv EmptyString) = false ->
  main argv w = (SysExit 1, emit w [PNoDirectory (nth 1 argv EmptyString)]).
Proof.
  intros Hq H He. unfold main. rewrite H. cbn [Nat.eqb negb].
  unfold bind at 1. rewrite (@path_exists_run _ _ Hq), He. cbn [negb].
  rewrite print_bind by exact Hq. reflexivity.
Qed.

Lemma main_ok (argv : list string) (w : world) :
  let d := nth 1 argv EmptyString in
  quiet (env w) ->
  length argv = 2 ->
  fs_exists (files w) d = true ->
  all_readable (files w) d (fs_rglob (files w) d) ->
  main argv w = (Ret tt, emit w (full_report (files w) d)).
Proof.
  intros d Hq H He Hr. unfold main. rewrite H. cbn [Nat.eqb negb].
  fold d. unfold bind at 1. rewrite (@path_exists_run _ _ Hq), He. cbn [negb].
  unfold bind at 1. rewrite (@rglob_swift_run _ _ Hq).
  rewrite print_bind by exact Hq.
  unfold bind at 1. rewrite scan_files_ok; [|exact Hq|exact Hr].
  rewrite !print_bind by exact Hq. unfold bind at 1.
  rewrite files_with_matches_ok by exact Hr.
  rewrite !print_bind by exact Hq. rewrite print_run by exact Hq.
  rewrite !emit_emit.
  unfold full_report. cbn [files emit]. reflexivity.
Qed.

Lemma main_unreadable (argv : list string) (w : world) (good : list path)
    (bad : path) (rest : list path) :
  let d := nth 1 argv EmptyString in
  quiet (env w) ->
  length argv = 2 ->
  fs_exists (files w) d = true ->
  fs_rglob (files w) d = good ++ bad :: rest ->
  all_readable (files w) d good ->
  fs_read (files w) d bad = None ->
  main argv w
  = (Uncaught, emit w (PAnalyzing (length (good ++ bad :: rest)) :: blocks (files w) d good)).
Proof.
  intros d Hq H He Hfl Hg Hb. unfold main. rewrite H. cbn [Nat.eqb negb].
  fold d. unfold bind at 1. rewrite (@path_exists_run _ _ Hq), He. cbn [negb].
  unfold bind at 1. rewrite (@rglob_swift_run _ _ Hq).
  rewrite print_bind by exact Hq.
  unfold bind at 1. rewrite Hfl.
  rewrite scan_files_fail; [|exact Hq|exact Hg|exact Hb].
  rewrite emit_emit. reflexivity.
Qed.

(** In a quiet environment every call of [main] is of one of four kinds:
    wrong argument count, missing directory, a complete report, or a file
    that cannot be read. *)
Lemma main_cases (argv : list string) (w : world) :
  let d := nth 1 argv EmptyString in
  let fs := files w in
  quiet (env w) ->
  (length argv <> 2 /\ main argv w = (SysExit 1, emit w [PUsage])) \/
  (length argv = 2 /\ fs_exists fs d = false /\
   main argv w = (SysExit 1, emit w [PNoDirectory d])) \/
  (length argv = 2 /\ fs_exists fs d = true /\ all_readable fs d (fs_rglob fs d) /\
   main argv w = (Ret tt, emit w (full_report fs d))) \/
  (length argv = 2 /\ fs_exists fs d = true /\
   exists good bad rest,
     fs_rglob fs d = good ++ bad :: rest /\ all_readable fs d good /\
     fs_read fs d bad = None /\
     main argv w
     = (Uncaught, emit w (PAnalyzing (length (fs_rglob fs d)) :: blocks fs d good))).
Proof.
  intros d fs Hq.
  destruct (Nat.eq_dec (length argv) 2) as [H|H].
  2: { left. split; [assumption|]. apply main_usage; assumption. }
  right. destruct (fs_exists fs d) eqn:He.
  2: { left. repeat split; auto. apply main_no_directory; assumption. }
  right. destruct (readable_or_not fs d (fs_rglob fs d))
    as [Hr | (good & bad & rest & Hfl & Hg & Hb)].
  - left. repeat split; auto. apply main_ok; assumption.
  - right. repeat split; auto. exists good, bad, rest. repeat split; auto.
    rewrite Hfl. apply main_unreadable; assumption.
Qed.

(** ** Counting in the report *)

Lemma found_counts_app (a b : list out_line) :
  found_counts (a ++ b) = found_counts a ++ found_counts b.
Proof. apply flat_map_app. Qed.

Lemma totals_app (a b : list out_line) : totals (a ++ b) = totals a ++ totals b.
Proof. apply flat_map_app. Qed.

Lemma affected_counts_app (a b : list out_line) :
  affected_counts (a ++ b) = affected_counts a ++ affected_counts b.
Proof. apply flat_map_app. Qed.

Lemma match_entries_counts (ms : list match_info) :
  forall i,
    found_counts (match_entries i ms) = [] /\
    totals (match_entries i ms) = [] /\
    affected_counts (match_entries i ms) = [].
Proof.
  induction ms as [|m ms IH]; intros i; simpl; [auto|]. apply IH.
Qed.

Lemma blocks_counts (fs : filesystem) (d : path) (fl : list path) :
  list_sum (found_counts (blocks fs d fl))
  = list_sum (map (fun f => length (matches_of fs d f)) fl) /\
  totals (blocks fs d fl) = [] /\
  affected_counts (blocks fs d fl) = [].
Proof.
  induction fl as [|f fl (IHf & IHt & IHa)]; [simpl; auto|].
  unfold blocks. cbn [flat_map map]. fold (blocks fs d fl).
  rewrite found_counts_app, totals_app, affected_counts_app, IHt, IHa.
  rewrite list_sum_app, IHf. unfold file_block.
  destruct (matches_of fs d f) as [|m ms]; [simpl; auto|].
  cbn [nonempty]. rewrite found_counts_app, totals_app, affected_counts_app.
  destruct (match_entries_counts (m :: ms) 1) as (-> & -> & ->).
  simpl. repeat split; lia.
Qed.

Lemma match_line_files_app (a b : list out_line) :
  forall cur,
    match_line_files cur (a ++ b)
    = match_line_files cur a ++ match_line_files (last_header cur a) b.
Proof.
  induction a as [|l a IH]; intros cur; [reflexivity|].
  destruct l; simpl; try apply IH.
  destruct cur; simpl; rewrite IH; reflexivity.
Qed.

Lemma match_entries_files (f : path) (ms : list match_info) :
  forall i, match_line_files (Some f) (match_entries i ms) = repeat f (length ms).
Proof.
  induction ms as [|m ms IH]; intros i; simpl; [reflexivity|].
  rewrite IH. reflexivity.
Qed.

Lemma blocks_files (fs : filesystem) (d : path) (fl : list path) :
  forall cur,
    match_line_files cur (blocks fs d fl)
    = flat_map (fun f => repeat f (length (matches_of fs d f))) fl.
Proof.
  induction fl as [|f fl IH]; intros cur; [reflexivity|].
  unfold blocks. cbn [flat_map]. fold (blocks fs d fl).
  rewrite match_line_files_app, IH. f_equal.
  unfold file_block. destruct (matches_of fs d f) as [|m ms]; [reflexivity|].
  cbn [nonempty app match_line_files]. apply match_entries_files.
Qed.

(** The files named by the match entries of the blocks are, as a set, the
    files with matches. *)
Lemma distinct_block_files (fs : filesystem) (d : path) (fl : list path) :
  NoDup fl ->
  length (nodup string_dec (flat_map (fun f => repeat f (length (matches_of fs d f))) fl))
  = length (filter (has_matches fs d) fl).
Proof.
  intros Hnd. apply Permutation_length, NoDup_Permutation.
  - apply NoDup_nodup.
  - apply NoDup_filter. assumption.
  - intros x. rewrite nodup_In, in_flat_map, filter_In. split.
    + intros (f & Hf & Hx). pose proof (repeat_spec _ _ _ Hx) as ->.
      split; [assumption|]. unfold has_matches.
      destruct (matches_of fs d f); [contradiction|reflexivity].
    + intros (Hx & Hm). exists x. split; [assumption|].
      unfold has_matches in Hm. destruct (matches_of fs d x); [discriminate|].
      simpl. left. reflexivity.
Qed.

Lemma full_report_counts (fs : filesystem) (d : path) :
  let out := full_report fs d in
  totals out = [list_sum (found_counts out)] /\
  affected_counts out = [length (filter (has_matches fs d) (fs_rglob fs d))] /\
  match_line_files None out
  = flat_map (fun f => repeat f (length (matches_of fs d f))) (fs_rglob fs d).
Proof.
  unfold full_report. cbv zeta.
  destruct (blocks_counts fs d (fs_rglob fs d)) as (Hf & Ht & Ha).
  rewrite !totals_app, !affected_counts_app, !found_counts_app, Ht, Ha.
  rewrite !list_sum_app, Hf. cbn [app match_line_files].
  rewrite match_line_files_app, blocks_files.
  simpl. rewrite app_nil_r. repeat split. f_equal. lia.
Qed.

Lemma run_cases (fs : filesystem) (argv : list string) :
  let d := nth 1 argv EmptyString in
  (length argv <> 2 /\ run fs argv = (SysExit 1, MkWorld fs no_faults [PUsage] [])) \/
  (length argv = 2 /\ fs_exists fs d = false /\
   run fs argv = (SysExit 1, MkWorld fs no_faults [PNoDirectory d] [])) \/
  (length argv = 2 /\ fs_exists fs d = true /\ all_readable fs d (fs_rglob fs d) /\
   run fs argv = (Ret tt, MkWorld fs no_faults (full_report fs d) [])) \/
  (length argv = 2 /\ fs_exists fs d = true /\
   exists good bad rest,
     fs_rglob fs d = good ++ bad :: rest /\ all_readable fs d good /\
     fs_read fs d bad = None /\
     run fs argv
     = (Uncaught,
        MkWorld fs no_faults (PAnalyzing (length (fs_rglob fs d)) :: blocks fs d good) [])).
Proof. exact (main_cases argv (start_world no_faults fs) quiet_no_faults). Qed.

(** Case analysis on the kind of a run; [good] names the files read before
    the one that fails. *)
Ltac by_run_kind fs argv good :=
  destruct (run_cases fs argv)
    as [(_ & ->) | [(_ & _ & ->) | [(_ & _ & _ & ->)
        | (_ & _ & good & ? & ? & _ & _ & _ & ->)]]];
  unfold output; cbn [fst snd stdout].

(** ** The report *)

(** C6. The total of the summary is the sum of the counts of the per-file
    subheaders: a run that completes prints exactly one total, which is that
    sum, and no run prints any other total. *)
Theorem summary_total_is_sum (fs : filesystem) (argv : list string) :
  let out := output (run fs argv) in
  (fst (run fs argv) = Ret tt -> totals out = [list_sum (found_counts out)]) /\
  (forall t, In t (totals out) -> t = list_sum (found_counts out)).
Proof.
  cbv zeta.
  by_run_kind fs argv good.
  - split; [discriminate | intros t []].
  - split; [discriminate | intros t []].
  - destruct (full_report_counts fs (nth 1 argv EmptyString)) as (Ht & _).
    rewrite Ht. split; [reflexivity|]. intros t [<-|[]]. reflexivity.
  - destruct (blocks_counts fs (nth 1 argv EmptyString) good) as (_ & Ht & _).
    cbn [totals flat_map app]. fold (totals (blocks fs (nth 1 argv EmptyString) good)).
    rewrite Ht. split; [discriminate | intros t []].
Qed.

Lemma summary_total_is_sum_witness :
  found_counts (output (run demo_fs demo_argv)) = [1; 2] /\
  totals (output (run demo_fs demo_argv))
  = [list_sum (found_counts (output (run demo_fs demo_argv)))].
Proof.
  split; [vm_compute; reflexivity|].
  apply (summary_total_is_sum demo_fs demo_argv). vm_compute. reflexivity.
Defined.

(** C7. With the files unchanged during the run, and the directory walk
    listing every file once, the count after [Files affected:] is the number
    of distinct files for which a match entry was printed. *)
Theorem files_affected_is_distinct_reported (fs : filesystem) (argv : list string) :
  NoDup (fs_rglob fs (nth 1 argv EmptyString)) ->
  let out := output (run fs argv) in
  (fst (run fs argv) = Ret tt -> affected_counts out = [distinct_reported_files out]) /\
  (forall n, In n (affected_counts out) -> n = distinct_reported_files out).
Proof.
  intros Hnd. cbv zeta.
  by_run_kind fs argv good.
  - split; [discriminate | intros n []].
  - split; [discriminate | intros n []].
  - destruct (full_report_counts fs (nth 1 argv EmptyString)) as (_ & Ha & Hf).
    unfold distinct_reported_files. rewrite Ha, Hf.
    rewrite distinct_block_files by assumption.
    split; [reflexivity|]. intros n [<-|[]]. reflexivity.
  - destruct (blocks_counts fs (nth 1 argv EmptyString) good) as (_ & _ & Ha).
    cbn [affected_counts flat_map app].
    fold (affected_counts (blocks fs (nth 1 argv EmptyString) good)).
    rewrite Ha. split; [discriminate | intros n []].
Qed.

Lemma files_affected_is_distinct_reported_witness :
  affected_counts (output (run demo_fs demo_argv)) = [2] /\
  affected_counts (output (run demo_fs demo_argv))
  = [distinct_reported_files (output (run demo_fs demo_argv))].
Proof.
  split; [vm_compute; reflexivity|].
  apply (files_affected_is_distinct_reported demo_fs demo_argv).
  - vm_compute. repeat constructor; simpl; intuition discriminate.
  - vm_compute. reflexivity.
Defined.

(** ** Exit status and effects *)

Lemma framed_ret {A} (a : A) : framed (ret a).
Proof.
  intros w. split; [exists []; symmetry; apply emit_nil | discriminate].
Qed.

Lemma framed_print (l : out_line) : framed (print l).
Proof.
  intros w. unfold print. destruct (print_raises (env w) (stdout w) l); cbn [fst snd].
  - split; [exists []; symmetry; apply emit_nil | discriminate].
  - split; [exists [l]; reflexivity | discriminate].
Qed.

Lemma framed_sys_exit {A} : framed (@sys_exit A 1).
Proof.
  intros w. split; [exists []; symmetry; apply emit_nil|].
  intros code H. injection H as <-. reflexivity.
Qed.

Lemma framed_path_exists (p : path) : framed (path_exists p).
Proof.
  intros w. unfold path_exists. destruct (exists_raises (env w) p);
    (split; [exists []; symmetry; apply emit_nil | discriminate]).
Qed.

Lemma framed_rglob_swift (p : path) : framed (rglob_swift p).
Proof.
  intros w. unfold rglob_swift. destruct (rglob_raises (env w) p);
    (split; [exists []; symmetry; apply emit_nil | discriminate]).
Qed.

(** Opening a file for reading leaves it as it is. *)
Lemma framed_open_read (d f : path) : framed (open_read ModeRead d f).
Proof.
  intros w. unfold open_read. destruct (fs_read (files w) d f);
    (split; [exists []; symmetry; apply emit_nil | discriminate]).
Qed.

Lemma framed_bind {A B} (c : prog A) (k : A -> prog B) :
  framed c -> (forall a, framed (k a)) -> framed (bind c k).
Proof.
  intros Hc Hk w. destruct (Hc w) as [(out & E) Hcode]. unfold bind.
  destruct (c w) as [[a|code|] w1]; cbn [fst snd] in *; subst w1.
  - destruct (Hk a (emit w out)) as [(out2 & E2) H2]. split; [|exact H2].
    exists (out ++ out2). rewrite E2. apply emit_emit.
  - split; [exists out; reflexivity|].
    intros code0 H. injection H as <-. apply Hcode. reflexivity.
  - split; [exists out; reflexivity | discriminate].
Qed.

Lemma framed_analyze_patterns (d f : path) : framed (analyze_patterns d f).
Proof.
  apply framed_bind; [apply framed_open_read | intros; apply framed_ret].
Qed.

Lemma framed_report_matches (ms : list match_info) :
  forall i, framed (report_matches i ms).
Proof.
  induction ms as [|m ms IH]; intros i; cbn [report_matches].
  - apply framed_ret.
  - repeat (apply framed_bind; [apply framed_print | intros _]). apply IH.
Qed.

Lemma framed_scan_files (d : path) (fl : list path) :
  forall total, framed (scan_files d fl total).
Proof.
  induction fl as [|f fl IH]; intros total; cbn [scan_files].
  - apply framed_ret.
  - apply framed_bind; [apply framed_analyze_patterns | intros ms].
    destruct (nonempty ms); [|apply IH].
    repeat (apply framed_bind; [apply framed_print | intros _]).
    apply framed_bind; [apply framed_report_matches | intros _]. apply IH.
Qed.

Lemma framed_files_with_matches (d : path) (fl : list path) :
  framed (files_with_matches d fl).
Proof.
  induction fl as [|f fl IH]; cbn [files_with_matches].
  - apply framed_ret.
  - apply framed_bind; [apply framed_analyze_patterns | intros ms].
    apply framed_bind; [apply IH | intros kept]. apply framed_ret.
Qed.

Lemma framed_main (argv : list string) : framed (main argv).
Proof.
  unfold main. destruct (negb (length argv =? 2)).
  - apply framed_bind; [apply framed_print | intros _; apply framed_sys_exit].
  - apply framed_bind; [apply framed_path_exists | intros found].
    destruct (negb found).
    + apply framed_bind; [apply framed_print | intros _; apply framed_sys_exit].
    + apply framed_bind; [apply framed_rglob_swift | intros fl].
      apply framed_bind; [apply framed_print | intros _].
      apply framed_bind; [apply framed_scan_files | intros total].
      apply framed_bind; [apply framed_print | intros _].
      apply framed_bind; [apply framed_print | intros _].
      apply framed_bind; [apply framed_files_with_matches | intros affected].
      repeat (apply framed_bind; [apply framed_print | intros _]).
      apply framed_print.
Qed.

(** The process in an environment whose final flush succeeds. *)
Lemma process_of_main (argv : list string) (w : world) (o : outcome unit) (out : list out_line) :
  main argv w = (o, emit w out) ->
  flush_fails (env w) (stdout w ++ out) = false ->
  process argv w
  = (exit_status o,
     match o with Uncaught => complain (emit w out) ETraceback | _ => emit w out end).
Proof.
  intros Hm Hf. unfold process. rewrite Hm.
  destruct o; cbn [complain emit env stdout]; rewrite Hf; reflexivity.
Qed.

(** C8, as stated, fails: with one argument and an existing directory, an
    entry that cannot be read ends the run with an exception and status 1,
    also when nothing else fails. *)
Lemma unreadable_file_exits_nonzero :
  length demo_argv = 2 /\
  fs_exists broken_fs (nth 1 demo_argv EmptyString) = true /\
  fst (run broken_fs demo_argv) = Uncaught /\
  fst (process demo_argv (start_world no_faults broken_fs)) = 1%Z /\
  fst (process demo_argv (start_world no_faults broken_fs)) <> 0%Z.
Proof. vm_compute. repeat split; discriminate. Qed.

(** C8, amended. Provided that the existence check, the directory walk,
    every write to the standard output and the final flush succeed: a run
    with an argument count other than one positional argument, or with a
    directory that does not exist, prints one line and exits with status 1;
    every other run in which all the listed files can be read prints the
    complete report and exits with status 0, whatever the number of
    matches. *)
Theorem exit_status_of_run (e : environment) (fs : filesystem) (argv : list string) :
  quiet e ->
  let d := nth 1 argv EmptyString in
  let r := process argv (start_world e fs) in
  (length argv <> 2 -> stdout (snd r) = [PUsage] /\ fst r = 1%Z) /\
  (length argv = 2 -> fs_exists fs d = false ->
   stdout (snd r) = [PNoDirectory d] /\ fst r = 1%Z) /\
  (length argv = 2 -> fs_exists fs d = true -> all_readable fs d (fs_rglob fs d) ->
   stdout (snd r) = full_report fs d /\ fst r = 0%Z).
Proof.
  intros Hq. cbv zeta.
  assert (Hf : forall out, flush_fails (env (start_world e fs))
                             (stdout (start_world e fs) ++ out) = false)
    by (intros out; apply Hq).
  repeat split; intros.
  1-2: rewrite (@process_of_main argv (start_world e fs) (SysExit 1) [PUsage]);
       [reflexivity | apply main_usage; assumption | apply Hf].
  1-2: rewrite (@process_of_main argv (start_world e fs) (SysExit 1)
                  [PNoDirectory (nth 1 argv EmptyString)]);
       [reflexivity | apply main_no_directory; assumption | apply Hf].
  1-2: rewrite (@process_of_main argv (start_world e fs) (Ret tt)
                  (full_report fs (nth 1 argv EmptyString)));
       [reflexivity | apply main_ok; assumption | apply Hf].
Qed.

Lemma exit_status_of_run_witness :
  fst (process ["replace_unsafe_calls.py"%string] (start_world no_faults demo_fs)) = 1%Z /\
  fst (process ["replace_unsafe_calls.py"; "Missing"]%string
         (start_world no_faults demo_fs)) = 1%Z /\
  fst (process demo_argv (start_world no_faults demo_fs)) = 0%Z /\
  (stdout (snd (process demo_argv (start_world no_faults empty_fs)))
   = [PAnalyzing 0; PSummaryHeader; PTotal 0; PFilesAffected 0;
      PNextSteps; PStep1; PStep2; PStep3; PStep4] /\
   fst (process demo_argv (start_world no_faults empty_fs)) = 0%Z).
Proof.
  split; [|split; [|split]].
  - destruct (@exit_status_of_run no_faults demo_fs ["replace_unsafe_calls.py"%string]
                quiet_no_faults) as (H & _ & _).
    apply H. simpl. discriminate.
  - destruct (@exit_status_of_run no_faults demo_fs
                ["replace_unsafe_calls.py"; "Missing"]%string quiet_no_faults)
      as (_ & H & _).
    apply H; reflexivity.
  - destruct (@exit_status_of_run no_faults demo_fs demo_argv quiet_no_faults)
      as (_ & _ & H).
    apply H; try reflexivity.
    intros f Hf. simpl in Hf.
    destruct Hf as [<-|[<-|[<-|[]]]]; vm_compute; discriminate.
  - destruct (@exit_status_of_run no_faults empty_fs demo_argv quiet_no_faults)
      as (_ & _ & H).
    destruct H as (Ho & Hs); try reflexivity.
    + intros f [].
    + split; [rewrite Ho; reflexivity | exact Hs].
Defined.

(** C9, as stated, fails: the run that meets an entry it cannot read has
    an effect other than text on the standard output and its exit status,
    the traceback that the interpreter writes to the standard error. *)
Lemma unreadable_file_writes_traceback :
  stderr (start_world no_faults broken_fs) = [] /\
  stderr (snd (process demo_argv (start_world no_faults broken_fs))) = [ETraceback].
Proof. vm_compute. split; reflexivity. Qed.

(** C9, amended. Every run, whatever fails in it, leaves the file system as
    it found it: every file reads as before. Its effects are text added to
    the standard output, its exit status and, in a run that does not end
    with status 0, what the interpreter writes to the standard error (the
    traceback of an uncaught exception, the complaint about a failed final
    flush); a run that ends with status 0 writes nothing there. *)
Theorem files_untouched (argv : list string) (w : world) :
  let r := process argv w in
  files (snd r) = files w /\
  (forall d f, fs_read (files (snd r)) d f = fs_read (files w) d f) /\
  (exists out, stdout (snd r) = stdout w ++ out) /\
  (exists err, stderr (snd r) = stderr w ++ err /\ (fst r = 0%Z -> err = [])).
Proof.
  cbv zeta. destruct (framed_main argv w) as [(out & E) Hcode].
  unfold process. destruct (main argv w) as [o w1]. cbn [fst snd] in *. subst w1.
  assert (Hzero : exit_status o = 0%Z -> o = Ret tt).
  { destruct o as [[]|code|]; cbn [exit_status]; intros H.
    - reflexivity.
    - specialize (Hcode code eq_refl). lia.
    - discriminate H. }
  destruct o as [[]|code|];
    match goal with
    | |- context [flush_fails ?e ?p] => destruct (flush_fails e p)
    end; cbn [fst snd files stdout stderr complain emit];
    (split; [reflexivity|]); (split; [reflexivity|]); (split; [exists out; reflexivity|]).
  - exists [EFlushFailed]. split; [reflexivity | discriminate].
  - exists []. split; [symmetry; apply app_nil_r | reflexivity].
  - exists [EFlushFailed]. split; [reflexivity | discriminate].
  - exists []. split; [symmetry; apply app_nil_r | reflexivity].
  - exists [ETraceback; EFlushFailed].
    split; [rewrite <- app_assoc; reflexivity | discriminate].
  - exists [ETraceback]. split; [reflexivity | discriminate].
Qed.

(** * Further properties of the code *)

(** ** Supporting lemmas *)

Lemma all_in_not_In (c : cp) (l : text) :
  all_in (Re.other_than c) l <-> ~ In c l.
Proof.
  unfold all_in, Re.other_than. rewrite Forall_forall. split.
  - intros H Hin. specialize (H c Hin). rewrite N.eqb_refl in H. discriminate.
  - intros H x Hx. destruct (N.eqb_spec x c) as [->|]; [contradiction|reflexivity].
Qed.

Lemma lstrip_head (s : text) (c : cp) (t : text) :
  lstrip s = c :: t -> is_space c = false.
Proof.
  induction s as [|x s IH]; simpl; [discriminate|].
  destruct (is_space x) eqn:E; [exact IH|].
  intros H. injection H as <- _. exact E.
Qed.

Lemma lstrip_Forall (P : cp -> Prop) (s : text) : Forall P s -> Forall P (lstrip s).
Proof.
  induction 1 as [|x s Hx Hs IH]; simpl; [constructor|].
  destruct (is_space x); [exact IH | constructor; assumption].
Qed.

Lemma lstrip_snoc (a : text) (c : cp) :
  is_space c = false -> lstrip (a ++ [c]) = lstrip a ++ [c].
Proof.
  intros Hc. induction a as [|x a IH]; simpl.
  - rewrite Hc. reflexivity.
  - destruct (is_space x); [exact IH | reflexivity].
Qed.

Lemma strip_Forall (P : cp -> Prop) (s : text) : Forall P s -> Forall P (strip s).
Proof.
  intros H. unfold strip, rstrip.
  apply Forall_rev, lstrip_Forall, Forall_rev, lstrip_Forall, H.
Qed.

(** A stripped text neither starts nor ends with whitespace. *)
Lemma strip_ends (s : text) :
  (forall c, hd_error (strip s) = Some c -> is_space c = false) /\
  (forall c, hd_error (rev (strip s)) = Some c -> is_space c = false).
Proof.
  unfold strip, rstrip. split; intros c H.
  - destruct (lstrip s) as [|x t] eqn:E; [discriminate H|].
    pose proof (@lstrip_head _ _ _ E) as Hx.
    simpl rev in H. rewrite (@lstrip_snoc (rev t) x Hx), rev_app_distr in H.
    simpl in H. injection H as <-. exact Hx.
  - rewrite rev_involutive in H.
    destruct (lstrip (rev (lstrip s))) as [|x t] eqn:E; [discriminate H|].
    simpl in H. injection H as <-. exact (@lstrip_head _ _ _ E).
Qed.

(** A run of characters of a class is determined by the text it opens, when
    the character after it is outside the class. *)
Lemma run_unique (p : cp -> bool) (a b : text) (c d : cp) (x y : text) :
  all_in p a -> all_in p b -> p c = false -> p d = false ->
  a ++ c :: x = b ++ d :: y -> a = b /\ c :: x = d :: y.
Proof.
  unfold all_in. revert b.
  induction a as [|u a IH]; intros [|v b] Ha Hb Hc Hd E; simpl in E.
  - auto.
  - injection E as -> _. inversion Hb; subst. congruence.
  - injection E as <- _. inversion Ha; subst. congruence.
  - injection E as -> E. inversion Ha; inversion Hb; subst.
    destruct (IH b) as [-> ?]; auto.
Qed.

(** The text of a call determines its parts. *)
Lemma call_text_injective (p q : call_parts) :
  call_ok p -> call_ok q -> call_text p = call_text q -> p = q.
Proof.
  intros (_ & Pt & _ & Pa & _ & Po & P1 & P2 & P3 & P4)
         (_ & Qt & _ & Qa & _ & Qo & Q1 & Q2 & Q3 & Q4) E.
  destruct p as [g1 w1 g2 w2 w3 w4 g3], q as [h1 v1 h2 v2 v3 v4 h3].
  unfold call_text in E.
  cbn [p_target p_ws1 p_attr p_ws2 p_ws3 p_ws4 p_out] in *.
  apply app_inv_head in E. cbn [app] in E.
  apply (@run_unique _ _ _ _ _ _ _ Pt Qt) in E; [|reflexivity|reflexivity].
  destruct E as [-> E]. injection E as E.
  apply (@run_unique _ _ _ _ _ _ _ P1 Q1) in E; [|reflexivity|reflexivity].
  destruct E as [-> E]. injection E as E.
  apply (@run_unique _ _ _ _ _ _ _ Pa Qa) in E; [|reflexivity|reflexivity].
  destruct E as [-> E]. injection E as E.
  apply (@run_unique _ _ _ _ _ _ _ P2 Q2) in E; [|reflexivity|reflexivity].
  destruct E as [-> E]. injection E as E.
  apply (@run_unique _ _ _ _ _ _ _ P3 Q3) in E; [|reflexivity|reflexivity].
  destruct E as [-> E]. injection E as E.
  apply (@run_unique _ _ _ _ _ _ _ P4 Q4) in E; [|reflexivity|reflexivity].
  destruct E as [-> E]. injection E as E.
  apply (@run_unique _ _ _ _ _ _ _ Po Qo) in E; [|reflexivity|reflexivity].
  destruct E as [-> _]. reflexivity.
Qed.

(** [finditer] loses no match: a position at which the pattern matches is
    the start of a yielded match or lies inside one that started before. *)
Lemma finditer_from_covers (r : Re.regex) (s : text) (fuel : nat) :
  forall pos i m,
    S (length s) - pos <= fuel -> pos <= i -> i <= length s ->
    Re.match_at r s i = Some m ->
    In m (Re.finditer_from fuel r s pos) \/
    exists m', In m' (Re.finditer_from fuel r s pos) /\
               Re.m_start m' < i /\ i < Re.m_end m'.
Proof.
  induction fuel as [|fuel IH]; intros pos i m Hf Hpi Hi Hm; [lia|].
  simpl. destruct (Nat.ltb_spec (length s) pos); [lia|].
  destruct (Re.match_at r s pos) as [m0|] eqn:Hp.
  - destruct (Nat.eq_dec pos i) as [->|Hne].
    + left. left. congruence.
    + assert (Hle : pos <= length s) by lia.
      destruct (@match_at_bounds r s pos m0 Hle Hp) as (_ & Hst & _ & _).
      destruct (Nat.lt_ge_cases i (Re.m_end m0)) as [Hin|Hout].
      * right. exists m0. split; [left; reflexivity | lia].
      * assert (Hf' : S (length s) - Nat.max (Re.m_end m0) (S pos) <= fuel) by lia.
        assert (Hp' : Nat.max (Re.m_end m0) (S pos) <= i) by lia.
        destruct (IH _ i m Hf' Hp' Hi Hm) as [H1|(m' & H1 & H2)].
        -- left. right. exact H1.
        -- right. exists m'. split; [right; assumption | assumption].
  - assert (pos <> i) by congruence.
    assert (Hf' : S (length s) - S pos <= fuel) by lia.
    assert (Hp' : S pos <= i) by lia.
    destruct (IH _ i m Hf' Hp' Hi Hm) as [H1|(m' & H1 & H2)].
    + left. exact H1.
    + right. exists m'. auto.
Qed.

Lemma call_text_length (p : call_parts) :
  call_ok p -> min_match_length <= length (call_text p).
Proof.
  intros (Ht & _ & Ha & _ & Ho & _).
  unfold call_text, min_match_length. rewrite !length_app.
  destruct (p_target p); [congruence|].
  destruct (p_attr p); [congruence|].
  destruct (p_out p); [congruence|].
  simpl. lia.
Qed.

Lemma skipn_call_bound (content : text) (i : nat) (p : call_parts) (rest : text) :
  skipn i content = call_text p ++ rest -> i <= length content.
Proof.
  intros H. destruct (Nat.le_gt_cases i (length content)) as [|Hgt]; [assumption|].
  rewrite skipn_all2 in H by lia. unfold call_text, call_prefix in H.
  discriminate H.
Qed.

(** ** The matcher *)

(** X1. No call of the shape of the pattern is lost, wherever it stands and
    whatever whitespace (line breaks too) separates its items: a call at
    offset [i] has a record that starts at [i], with the call as matched
    text, the stripped first argument as target, the attribute and the
    stripped output variable, or else [i] lies inside a record that starts
    before it. *)
Theorem calls_are_covered (content : text) (i : nat) (p : call_parts) (rest : text) :
  call_ok p ->
  skipn i content = call_text p ++ rest ->
  (exists r, In r (analyze_text content) /\
     start r = Z.of_nat i /\ full_match r = call_text p /\
     element r = strip (p_target p) /\ attribute r = p_attr p /\
     var_ref r = strip (p_out p)) \/
  (exists r, In r (analyze_text content) /\ (start r < Z.of_nat i < end_ r)%Z).
Proof.
  intros Hok H. pose proof (@skipn_call_bound content i p rest H) as Hi.
  destruct (@match_at_complete content i p rest Hok H)
    as (m & Hm & Hst & Hend & G1 & G2 & G3).
  destruct (@match_at_bounds pattern content i m Hi Hm) as (Hs & _ & _ & _).
  destruct (@finditer_from_covers pattern content (S (length content)) 0 i m)
    as [Hin | (m' & Hin & Hlt & Hgt)]; auto; try lia.
  - left. exists (info_of_match content m). split.
    + unfold analyze_text. apply in_map. exact Hin.
    + unfold info_of_match. cbn [start full_match element attribute var_ref].
      rewrite G1, G2, G3, Hst. repeat split.
      unfold Re.group. rewrite Hs, Hst, Hend. apply (@sub_of_skipn _ _ _ _ H).
  - right. exists (info_of_match content m'). split.
    + unfold analyze_text. apply in_map. exact Hin.
    + unfold info_of_match. cbn [start end_]. lia.
Qed.

Lemma calls_are_covered_witness :
  (exists r, In r (analyze_text multiline_text) /\
     start r = 10%Z /\ full_match r = call_text multiline_call_parts /\
     element r = strip (str "self.element") /\ attribute r = str "AXChildren" /\
     var_ref r = strip (str "childrenRef")) \/
  (exists r, In r (analyze_text multiline_text) /\ (start r < 10 < end_ r)%Z).
Proof.
  apply (@calls_are_covered multiline_text 10 multiline_call_parts
           ([newline] ++ str "return err")).
  - unfold call_ok, all_in.
    cbn [multiline_call_parts p_target p_attr p_out p_ws1 p_ws2 p_ws3 p_ws4].
    repeat split; try discriminate; vm_compute; repeat constructor.
  - vm_compute. reflexivity.
Defined.

(** X2. The matched text determines the record: two records, of the same
    or of different texts, with the same matched text have the same target,
    attribute and output variable, and get the same suggestion. *)
Theorem fields_determined_by_match (c1 c2 : text) (r1 r2 : match_info) :
  In r1 (analyze_text c1) -> In r2 (analyze_text c2) ->
  full_match r1 = full_match r2 ->
  element r1 = element r2 /\ attribute r1 = attribute r2 /\
  var_ref r1 = var_ref r2 /\
  suggest_replacement r1 = suggest_replacement r2.
Proof.
  intros H1 H2 E.
  apply analyze_text_shape in H1. apply analyze_text_shape in H2.
  destruct H1 as (p & i & Pok & _ & _ & _ & _ & Pf & Pe & Pa & Pv).
  destruct H2 as (q & j & Qok & _ & _ & _ & _ & Qf & Qe & Qa & Qv).
  assert (p = q) by (apply call_text_injective; congruence). subst q.
  assert (He : element r1 = element r2) by congruence.
  assert (Ha : attribute r1 = attribute r2) by congruence.
  repeat split; try congruence.
  unfold suggest_replacement. rewrite He, Ha. reflexivity.
Qed.

Lemma fields_determined_by_match_witness :
  element title_of_element = element second_call /\
  attribute title_of_element = attribute second_call /\
  var_ref title_of_element = var_ref second_call /\
  suggest_replacement title_of_element = suggest_replacement second_call.
Proof.
  apply (@fields_determined_by_match title_line two_calls).
  - vm_compute. left. reflexivity.
  - vm_compute. left. reflexivity.
  - reflexivity.
Defined.

(** X3. The fields of every record are well formed: the attribute is not
    empty and holds no double quote; the target holds no comma and the output
    variable no closing parenthesis, and neither starts or ends with
    whitespace; the matched text opens with the call prefix and ends with
    the closing parenthesis. *)
Theorem record_field_invariants (content : text) (r : match_info) :
  In r (analyze_text content) ->
  attribute r <> [] /\ ~ In dquote (attribute r) /\
  ~ In comma (element r) /\ ~ In rparen (var_ref r) /\
  (forall c, hd_error (element r) = Some c -> is_space c = false) /\
  (forall c, hd_error (rev (element r)) = Some c -> is_space c = false) /\
  (forall c, hd_error (var_ref r) = Some c -> is_space c = false) /\
  (forall c, hd_error (rev (var_ref r)) = Some c -> is_space c = false) /\
  exists body, full_match r = call_prefix ++ body ++ [rparen].
Proof.
  intros H. apply analyze_text_shape in H.
  destruct H as (p & i & Hok & _ & _ & _ & _ & Hf & He & Ha & Hv).
  destruct Hok as (_ & Ht & Ha1 & Haq & _ & Ho & _).
  rewrite Hf, He, Ha, Hv.
  split; [assumption|].
  split; [apply all_in_not_In; assumption|].
  split; [apply all_in_not_In, strip_Forall; assumption|].
  split; [apply all_in_not_In, strip_Forall; assumption|].
  split; [apply strip_ends|]. split; [apply strip_ends|].
  split; [apply strip_ends|]. split; [apply strip_ends|].
  exists (p_target p ++ [comma] ++ p_ws1 p ++ [dquote] ++ p_attr p ++ [dquote]
          ++ p_ws2 p ++ str "as" ++ p_ws3 p ++ str "CFString," ++ p_ws4 p
          ++ [amp] ++ p_out p).
  unfold call_text. rewrite <- !app_assoc. reflexivity.
Qed.

Lemma record_field_invariants_witness :
  attribute second_call <> [] /\ ~ In dquote (attribute second_call) /\
  ~ In comma (element second_call) /\ ~ In rparen (var_ref second_call) /\
  (forall c, hd_error (element second_call) = Some c -> is_space c = false) /\
  (forall c, hd_error (rev (element second_call)) = Some c -> is_space c = false) /\
  (forall c, hd_error (var_ref second_call) = Some c -> is_space c = false) /\
  (forall c, hd_error (rev (var_ref second_call)) = Some c -> is_space c = false) /\
  exists body, full_match second_call = call_prefix ++ body ++ [rparen].
Proof.
  apply (@record_field_invariants two_calls second_call).
  vm_compute. left. reflexivity.
Defined.

(** X4. The context of a record is the matched text with up to 100
    characters of the file on each side: it is [pre ++ full_match ++ post]
    with [len(pre) = min(start, 100)] and
    [len(post) = min(len(content) - end, 100)]. *)
Theorem context_around_match (content : text) (r : match_info) :
  In r (analyze_text content) ->
  exists pre post,
    context r = pre ++ full_match r ++ post /\
    Z.of_nat (length pre) = Z.min (start r) 100 /\
    Z.of_nat (length post) = Z.min (Z.of_nat (length content) - end_ r) 100.
Proof.
  intros Hr. apply analyze_text_In in Hr. destruct Hr as (m & i & -> & Hi & Hat).
  destruct (@match_at_bounds pattern content i m Hi Hat) as (Hs & Hst & Hle & Hend).
  set (a := Re.m_start m - 100).
  set (b := Nat.min (length content) (Re.m_end m + 100)).
  exists (Re.sub content a (Re.m_start m)), (Re.sub content (Re.m_end m) b).
  unfold info_of_match. cbn [context full_match start end_].
  assert (Ea : Z.max 0 (Z.of_nat (Re.m_start m) - 100) = Z.of_nat a) by (unfold a; lia).
  assert (Eb : Z.min (Z.of_nat (length content)) (Z.of_nat (Re.m_end m) + 100)
               = Z.of_nat b) by (unfold b; lia).
  rewrite Ea, Eb. unfold Re.group. rewrite Hs.
  split; [|split].
  - rewrite slice_sub by (unfold a, b; lia).
    rewrite (@sub_app content a (Re.m_start m) b) by (unfold a, b; lia).
    rewrite (@sub_app content (Re.m_start m) (Re.m_end m) b) by (unfold b; lia).
    reflexivity.
  - rewrite sub_length by (unfold a; lia). unfold a. lia.
  - rewrite sub_length by (unfold b; lia). unfold b. lia.
Qed.

Lemma context_around_match_witness :
  exists pre post,
    context second_call = pre ++ full_match second_call ++ post /\
    Z.of_nat (length pre) = Z.min (start second_call) 100 /\
    Z.of_nat (length post) = Z.min (Z.of_nat (length two_calls) - end_ second_call) 100.
Proof.
  apply (@context_around_match two_calls second_call).
  vm_compute. left. reflexivity.
Defined.

Lemma finditer_from_count (s : text) (fuel : nat) :
  forall pos,
    pos + min_match_length * length (Re.finditer_from fuel pattern s pos)
    <= Nat.max pos (length s).
Proof.
  induction fuel as [|fuel IH]; intros pos; simpl;
    [change min_match_length with 49; lia|].
  destruct (Nat.ltb_spec (length s) pos) as [|Hpos];
    [simpl; change min_match_length with 49; lia|].
  destruct (Re.match_at pattern s pos) as [m|] eqn:Hm.
  - destruct (@match_at_shape s pos m Hpos Hm) as (p & Hok & _ & _ & He & Hle & _).
    pose proof (call_text_length Hok) as Hlen.
    specialize (IH (Nat.max (Re.m_end m) (S pos))).
    cbn [length]. change min_match_length with 49 in *. lia.
  - specialize (IH (S pos)). change min_match_length with 49 in *. lia.
Qed.

(** X5. A match is at least 49 characters long, and the matches do not
    overlap: 49 times the number of records of a text is at most the length
    of the text, so a text shorter than 49 characters has no record. *)
Theorem record_count_bound (content : text) :
  min_match_length = 49 /\
  Forall (fun r => (Z.of_nat min_match_length <= end_ r - start r)%Z)
    (analyze_text content) /\
  min_match_length * length (analyze_text content) <= length content.
Proof.
  split; [reflexivity|]. split.
  - apply Forall_forall. intros r Hr. apply analyze_text_shape in Hr.
    destruct Hr as (p & i & Hok & _ & _ & Hst & Hend & _).
    pose proof (call_text_length Hok). lia.
  - unfold analyze_text. rewrite length_map. unfold Re.finditer.
    pose proof (finditer_from_count content (S (length content)) 0) as H.
    change min_match_length with 49 in *. lia.
Qed.

(** ** The classifier *)

Lemma in_list_false (x : text) (l : list text) : in_list x l = false -> ~ In x l.
Proof.
  intros E H. apply in_list_In in H. congruence.
Qed.

(** X6. The classification is exact: a suggestion uses a typed getter only
    for an attribute of that getter's list (getArrayAttribute only for the
    collection list, and so on), and the generic getAttribute only for an
    attribute that is in none of the six lists. *)
Theorem suggest_replacement_category_exact (r : match_info) :
  (suggest_replacement r = wrapper_call "getArrayAttribute" (element r) (attribute r) ->
   In (attribute r) collection_attributes) /\
  (suggest_replacement r = wrapper_call "getStringAttribute" (element r) (attribute r) ->
   In (attribute r) string_attributes) /\
  (suggest_replacement r = wrapper_call "getBoolAttribute" (element r) (attribute r) ->
   In (attribute r) bool_attributes) /\
  (suggest_replacement r = wrapper_call "getRectAttribute" (element r) (attribute r) ->
   attribute r = str "AXFrame") /\
  (suggest_replacement r = wrapper_call "getPointAttribute" (element r) (attribute r) ->
   attribute r = str "AXPosition") /\
  (suggest_replacement r = wrapper_call "getSizeAttribute" (element r) (attribute r) ->
   attribute r = str "AXSize") /\
  (suggest_replacement r = wrapper_call "getAttribute" (element r) (attribute r) ->
   ~ In (attribute r)
       (collection_attributes ++ string_attributes ++ bool_attributes
        ++ rect_attributes ++ point_attributes ++ size_attributes)).
Proof.
  destruct r as [e a v fm ctx st en]. cbn [attribute element].
  unfold suggest_replacement. cbn [attribute element].
  destruct (in_list a collection_attributes) eqn:E1;
    [|destruct (in_list a string_attributes) eqn:E2;
      [|destruct (in_list a bool_attributes) eqn:E3;
        [|destruct (in_list a rect_attributes) eqn:E4;
          [|destruct (in_list a point_attributes) eqn:E5;
            [|destruct (in_list a size_attributes) eqn:E6]]]]];
    repeat split; intros H;
    try (unfold wrapper_call in H; simpl in H; discriminate H);
    try (apply in_list_In; assumption).
  - apply in_list_In in E4. destruct E4 as [<-|[]]. reflexivity.
  - apply in_list_In in E5. destruct E5 as [<-|[]]. reflexivity.
  - apply in_list_In in E6. destruct E6 as [<-|[]]. reflexivity.
  - rewrite !in_app_iff.
    pose proof (in_list_false _ _ E1). pose proof (in_list_false _ _ E2).
    pose proof (in_list_false _ _ E3). pose proof (in_list_false _ _ E4).
    pose proof (in_list_false _ _ E5). pose proof (in_list_false _ _ E6).
    tauto.
Qed.

Lemma suggest_replacement_category_exact_witness :
  In (attribute second_call) string_attributes /\
  ~ In (str "AXCustomFoo")
      (collection_attributes ++ string_attributes ++ bool_attributes
       ++ rect_attributes ++ point_attributes ++ size_attributes).
Proof.
  split.
  - destruct (suggest_replacement_category_exact second_call) as (_ & H & _).
    apply H. reflexivity.
  - destruct (suggest_replacement_category_exact
                (MkInfo (str "element") (str "AXCustomFoo") (str "ref") [] [] 0 0))
      as (_ & _ & _ & _ & _ & _ & H).
    apply H. reflexivity.
Defined.

(** ** The report *)

Lemma prefix_firstn (n : nat) (s : text) : prefix n s = firstn n s.
Proof.
  unfold prefix, slice, clamp_index. cbn [Z.ltb Z.compare].
  destruct (Z.ltb_spec (Z.of_nat n) 0); [lia|].
  rewrite (Z.min_l 0) by lia. cbn [Z.to_nat skipn].
  destruct (Nat.le_gt_cases n (length s)).
  - rewrite Z.min_l by lia. rewrite Z.sub_0_r, Nat2Z.id. reflexivity.
  - rewrite Z.min_r by lia. rewrite Z.sub_0_r, Nat2Z.id.
    rewrite firstn_all, firstn_all2 by lia. reflexivity.
Qed.

Lemma snippet_of_context (ctx : text) : snippet_ok (prefix 100 (strip ctx)).
Proof.
  rewrite prefix_firstn. split.
  - rewrite length_firstn. lia.
  - intros x H. apply (proj1 (strip_ends ctx)).
    destruct (strip ctx); [discriminate H | exact H].
Qed.

Lemma match_entries_readings (ms : list match_info) :
  forall i,
    headers (match_entries i ms) = [] /\
    analyzing_counts (match_entries i ms) = [] /\
    match_indices (match_entries i ms) = seq i (length ms) /\
    Forall snippet_ok (context_snippets (match_entries i ms)).
Proof.
  induction ms as [|m ms IH]; intros i; simpl.
  - repeat split; constructor.
  - destruct (IH (S i)) as (H1 & H2 & H3 & H4).
    repeat split; auto.
    + rewrite H3. reflexivity.
    + constructor; [apply snippet_of_context | exact H4].
Qed.

Lemma blocks_readings (fs : filesystem) (d : path) (fl : list path) :
  headers (blocks fs d fl) = filter (has_matches fs d) fl /\
  analyzing_counts (blocks fs d fl) = [] /\
  match_indices (blocks fs d fl)
  = flat_map (fun f => seq 1 (length (matches_of fs d f))) fl /\
  Forall snippet_ok (context_snippets (blocks fs d fl)).
Proof.
  induction fl as [|f fl (IH1 & IH2 & IH3 & IH4)].
  - repeat split; constructor.
  - unfold blocks. cbn [flat_map filter]. fold (blocks fs d fl).
    unfold headers, analyzing_counts, match_indices, context_snippets in *.
    rewrite !flat_map_app, IH1, IH2, IH3.
    unfold file_block, has_matches.
    destruct (matches_of fs d f) as [|m ms] eqn:E.
    + cbn [nonempty flat_map app length seq]. repeat split; auto.
    + destruct (match_entries_readings (m :: ms) 1) as (H1 & H2 & H3 & H4).
      unfold headers, analyzing_counts, match_indices, context_snippets in *.
      cbn [nonempty]. rewrite !flat_map_app, H1, H2, H3.
      cbn [flat_map app]. repeat split; auto.
      apply Forall_app. split; assumption.
Qed.

Lemma matches_at_least_files (fs : filesystem) (d : path) (fl : list path) :
  length (filter (has_matches fs d) fl)
  <= list_sum (map (fun f => length (matches_of fs d f)) fl).
Proof.
  induction fl as [|f fl IH]; simpl; [lia|].
  unfold has_matches at 1. destruct (matches_of fs d f); simpl; lia.
Qed.

Lemma indices_count (fs : filesystem) (d : path) (fl : list path) :
  length (flat_map (fun f => seq 1 (length (matches_of fs d f))) fl)
  = list_sum (map (fun f => length (matches_of fs d f)) fl).
Proof.
  induction fl as [|f fl IH]; simpl; [reflexivity|].
  rewrite length_app, length_seq, IH. reflexivity.
Qed.

Lemma full_report_readings (fs : filesystem) (d : path) :
  let out := full_report fs d in
  let fl := fs_rglob fs d in
  headers out = filter (has_matches fs d) fl /\
  analyzing_counts out = [length fl] /\
  match_indices out = flat_map (fun f => seq 1 (length (matches_of fs d f))) fl /\
  Forall snippet_ok (context_snippets out) /\
  totals out = [list_sum (map (fun f => length (matches_of fs d f)) fl)] /\
  affected_counts out = [length (filter (has_matches fs d) fl)].
Proof.
  cbv zeta. unfold full_report.
  destruct (blocks_readings fs d (fs_rglob fs d)) as (H1 & H2 & H3 & H4).
  destruct (blocks_counts fs d (fs_rglob fs d)) as (_ & Ht & Ha).
  unfold headers, analyzing_counts, match_indices, context_snippets,
    totals, affected_counts in *.
  rewrite !flat_map_app, H1, H2, H3, Ht, Ha. cbn [flat_map app].
  rewrite !app_nil_r. repeat split; auto.
Qed.

(** X7. An entry that cannot be read stops the run where it stands: the
    header line and the reports of the files listed before it are printed,
    the files after it are not reported, no summary is printed, and the
    process ends with an exception and status 1. *)
Theorem unreadable_file_aborts_report (fs : filesystem) (argv : list string)
    (good : list path) (bad : path) (rest : list path) :
  let d := nth 1 argv EmptyString in
  length argv = 2 ->
  fs_exists fs d = true ->
  fs_rglob fs d = good ++ bad :: rest ->
  all_readable fs d good ->
  fs_read fs d bad = None ->
  fst (run fs argv) = Uncaught /\ status (run fs argv) = 1%Z /\
  output (run fs argv)
  = PAnalyzing (length (good ++ bad :: rest)) :: blocks fs d good /\
  headers (output (run fs argv)) = filter (has_matches fs d) good /\
  totals (output (run fs argv)) = [] /\
  affected_counts (output (run fs argv)) = [].
Proof.
  intros d Hn He Hfl Hg Hb. unfold run, output, status.
  rewrite (@main_unreadable argv (start_world no_faults fs) good bad rest
             quiet_no_faults Hn He Hfl Hg Hb).
  fold d. cbn [fst snd exit_status emit stdout files app].
  destruct (blocks_readings fs d good) as (Hh & _).
  destruct (blocks_counts fs d good) as (_ & Ht & Ha).
  repeat split; assumption.
Qed.

Lemma unreadable_file_aborts_report_witness :
  fst (run broken_fs demo_argv) = Uncaught /\ status (run broken_fs demo_argv) = 1%Z /\
  output (run broken_fs demo_argv)
  = PAnalyzing 3 :: blocks broken_fs "Sources"%string ["A.swift"%string] /\
  headers (output (run broken_fs demo_argv))
  = filter (has_matches broken_fs "Sources"%string) ["A.swift"%string] /\
  totals (output (run broken_fs demo_argv)) = [] /\
  affected_counts (output (run broken_fs demo_argv)) = [].
Proof.
  apply (@unreadable_file_aborts_report broken_fs demo_argv
           ["A.swift"%string] "D.swift"%string ["B.swift"%string]);
    try reflexivity.
  intros f [<-|[]]. vm_compute. discriminate.
Defined.

(** X8. In a run that completes, the files with a header in the report are
    the listed files that have at least one match, in the order of the
    listing: a file without a match leaves no trace in the report. *)
Theorem headers_are_files_with_matches (fs : filesystem) (argv : list string) :
  fst (run fs argv) = Ret tt ->
  headers (output (run fs argv))
  = filter (has_matches fs (nth 1 argv EmptyString))
      (fs_rglob fs (nth 1 argv EmptyString)).
Proof.
  by_run_kind fs argv good; try discriminate.
  intros _. apply full_report_readings.
Qed.

Lemma headers_are_files_with_matches_witness :
  headers (output (run demo_fs demo_argv)) = ["A.swift"; "B.swift"]%string.
Proof.
  rewrite (@headers_are_files_with_matches demo_fs demo_argv).
  - vm_compute. reflexivity.
  - vm_compute. reflexivity.
Defined.

(** X9. The counts of a completed report agree: the header counts the
    listed files, the total is the number of match entries printed, the
    affected-file count is the number of file headers printed, and the
    affected-file count exceeds neither the total nor the number of files. *)
Theorem summary_counts_consistent (fs : filesystem) (argv : list string) :
  fst (run fs argv) = Ret tt ->
  let out := output (run fs argv) in
  exists n t a,
    analyzing_counts out = [n] /\ totals out = [t] /\ affected_counts out = [a] /\
    n = length (fs_rglob fs (nth 1 argv EmptyString)) /\
    t = length (match_indices out) /\ a = length (headers out) /\
    a <= t /\ a <= n.
Proof.
  by_run_kind fs argv good; try discriminate.
  intros _. cbv zeta.
  destruct (full_report_readings fs (nth 1 argv EmptyString))
    as (Hh & Hn & Hi & _ & Ht & Ha).
  rewrite Hh, Hn, Hi, Ht, Ha. do 3 eexists.
  split; [reflexivity|]. split; [reflexivity|]. split; [reflexivity|].
  split; [reflexivity|]. split; [symmetry; apply indices_count|].
  split; [reflexivity|]. split.
  - apply matches_at_least_files.
  - apply filter_length_le.
Qed.

Lemma summary_counts_consistent_witness :
  exists n t a,
    analyzing_counts (output (run demo_fs demo_argv)) = [n] /\
    totals (output (run demo_fs demo_argv)) = [t] /\
    affected_counts (output (run demo_fs demo_argv)) = [a] /\
    n = length (fs_rglob demo_fs (nth 1 demo_argv EmptyString)) /\
    t = length (match_indices (output (run demo_fs demo_argv))) /\
    a = length (headers (output (run demo_fs demo_argv))) /\
    a <= t /\ a <= n.
Proof.
  apply (@summary_counts_consistent demo_fs demo_argv). vm_compute. reflexivity.
Defined.

(** X10. In a run that completes, the match entries of each reported file
    are numbered 1, 2, ... up to the number of its matches. *)
Theorem match_entries_numbered_from_one (fs : filesystem) (argv : list string) :
  fst (run fs argv) = Ret tt ->
  match_indices (output (run fs argv))
  = flat_map (fun f => seq 1 (length (matches_of fs (nth 1 argv EmptyString) f)))
      (fs_rglob fs (nth 1 argv EmptyString)).
Proof.
  by_run_kind fs argv good; try discriminate.
  intros _. apply full_report_readings.
Qed.

Lemma match_entries_numbered_from_one_witness :
  match_indices (output (run demo_fs demo_argv)) = [1; 1; 2].
Proof.
  rewrite (@match_entries_numbered_from_one demo_fs demo_argv).
  - vm_compute. reflexivity.
  - vm_compute. reflexivity.
Defined.

(** X11. In every run, each context snippet printed is at most 100
    characters long and does not start with whitespace. *)
Theorem context_snippets_bounded (fs : filesystem) (argv : list string) :
  Forall snippet_ok (context_snippets (output (run fs argv))).
Proof.
  by_run_kind fs argv good.
  - constructor.
  - constructor.
  - apply full_report_readings.
  - cbn [context_snippets flat_map app].
    apply (blocks_readings fs (nth 1 argv EmptyString) good).
Qed.

(** ** Runs in which operations fail *)

Lemma open_for_writing_truncates (d f : path) (w : world) :
  fs_read (files (snd (open_read ModeWrite d f w))) d f = Some [].
Proof.
  unfold open_read, truncated. cbn [snd files fs_read].
  rewrite !String.eqb_refl. reflexivity.
Qed.

Lemma bind_returns {A B} (c : prog A) (k : A -> prog B) (w : world) (b : B) (w' : world) :
  bind c k w = (Ret b, w') ->
  exists a w1, c w = (Ret a, w1) /\ k a w1 = (Ret b, w').
Proof.
  unfold bind. destruct (c w) as [[a|code|] w1]; intros H; try discriminate H.
  exists a, w1. split; [reflexivity | exact H].
Qed.

Lemma print_returns (l : out_line) (w : world) (u : unit) (w' : world) :
  print l w = (Ret u, w') -> w' = emit w [l].
Proof.
  unfold print. destruct (print_raises (env w) (stdout w) l); intros H;
    [discriminate H | injection H as _ <-; reflexivity].
Qed.

(** One step of a chain of prints that returned. *)
Ltac printed H :=
  let u := fresh "u" in
  let w1 := fresh "w" in
  let Hp := fresh "Hp" in
  apply bind_returns in H; destruct H as (u & w1 & Hp & H);
  apply print_returns in Hp; subst w1.








Lemma files_untouched_witness :
  let r := process demo_argv (start_world no_faults broken_fs) in
  files (snd r) = broken_fs /\
  (forall d f, fs_read (files (snd r)) d f = fs_read broken_fs d f) /\
  (exists out, stdout (snd r) = [] ++ out) /\
  (exists err, stderr (snd r) = [] ++ err /\ (fst r = 0%Z -> err = [])).
Proof. exact (files_untouched demo_argv (start_world no_faults broken_fs)). Defined.
